(** * Sonar/Sonda bundle-report plugin: module graph and source attribution

    A shallow embedding of the unplugin factory of the report plugin
    (hooks [load], [writeBundle], [optimizeModules], [moduleParsed] and the
    function [generateReportFromAssets]) together with the properties the
    specification states about them.

    Conventions.
    - [inputs], a JS object used as a dictionary from canonical keys to
      module records, is a [gmap string ModuleEntry].  Keys are assumed not to
      collide with the property names of [Object.prototype].
    - [sourcesGraph], a JS [Map], is an association list in insertion order
      with unique keys ([Map.prototype.set] keeps the position of a key that
      is already present).
    - Exceptions are explicit: every hook returns the state it leaves behind,
      the file-system effects it performed and whether it returned or threw. *)

From Stdlib Require Import NArith Ascii String.
From stdpp Require Import gmap strings list fin_maps.

Local Open Scope string_scope.

(** ** Node's [path] module, POSIX flavour

    [join], [dirname] and [resolve] are library functions of the host
    runtime.  They are modelled on path segments: [normalizeString] of the
    runtime walks the characters of the path and acts at every separator on
    the segment just read, which is what [normalizeStep] does. *)
Module NodePath.

Definition slash : ascii := "/"%char.

(** [s.split(c)]: the pieces of [s] between the occurrences of [c]. *)
Fixpoint splitOn (c : ascii) (s : string) : list string :=
  match s with
  | EmptyString => [EmptyString]
  | String a s' =>
      if decide (a = c) then EmptyString :: splitOn c s'
      else match splitOn c s' with
           | [] => [String a EmptyString]
           | h :: t => String a h :: t
           end
  end.

(** [l.join(c)] *)
Fixpoint joinWith (c : ascii) (l : list string) : string :=
  match l with
  | [] => EmptyString
  | [s] => s
  | s :: l' => s +:+ String c (joinWith c l')
  end.

Definition startsWithSlash (s : string) : bool :=
  match s with
  | String a _ => bool_decide (a = slash)
  | EmptyString => false
  end.

Fixpoint endsWithSlash (s : string) : bool :=
  match s with
  | EmptyString => false
  | String a EmptyString => bool_decide (a = slash)
  | String _ s' => endsWithSlash s'
  end.

(** One separator of [normalizeString]: [res] is the result so far, as a
    stack of segments (last segment first), [seg] the segment just read. *)
Definition normalizeStep (allowAboveRoot : bool) (res : list string) (seg : string)
  : list string :=
  if decide (seg = "" ∨ seg = ".") then res
  else if decide (seg = "..") then
    match res with
    | last :: rest =>
        if decide (last = "..")
        then (if allowAboveRoot then ".." :: res else res)
        else rest
    | [] => if allowAboveRoot then [".."] else []
    end
  else seg :: res.

Definition normalizeSegments (allowAboveRoot : bool) (segs : list string) : list string :=
  reverse (fold_left (normalizeStep allowAboveRoot) segs []).

Definition normalizeString (path : string) (allowAboveRoot : bool) : string :=
  joinWith slash (normalizeSegments allowAboveRoot (splitOn slash path)).

Definition normalize (path : string) : string :=
  if decide (path = "") then "."
  else
    let isAbsolute := startsWithSlash path in
    let trailingSeparator := endsWithSlash path in
    let p := normalizeString path (negb isAbsolute) in
    if decide (p = "") then
      (if isAbsolute then "/" else if trailingSeparator then "./" else ".")
    else
      let p' := if trailingSeparator then p +:+ "/" else p in
      if isAbsolute then "/" +:+ p' else p'.

(** [join(a, b)] *)
Definition join (a b : string) : string :=
  match decide (a = ""), decide (b = "") with
  | left _, left _ => "."
  | left _, right _ => normalize b
  | right _, left _ => normalize a
  | right _, right _ => normalize (a +:+ "/" +:+ b)
  end.

(** The backwards scan of [dirname] over the characters at index >= 1,
    given last character first.  The result is the index [end] of the
    separator that ends the directory part. *)
Fixpoint dirnameScan (revTail : list ascii) (matchedSlash : bool) : option nat :=
  match revTail with
  | [] => None
  | c :: l =>
      if decide (c = slash)
      then (if matchedSlash then dirnameScan l true else Some (S (length l)))
      else dirnameScan l false
  end.

Definition dirname (path : string) : string :=
  match path with
  | EmptyString => "."
  | String c0 tl =>
      let hasRoot := bool_decide (c0 = slash) in
      match dirnameScan (reverse (list_ascii_of_string tl)) true with
      | None => if hasRoot then "/" else "."
      | Some e =>
          if hasRoot && bool_decide (e = 1) then "//"
          else string_of_list_ascii (take e (list_ascii_of_string path))
      end
  end.

(** [resolve(cwd, p)] for an absolute working directory [cwd]. *)
Definition resolve (cwd p : string) : string :=
  let full := if startsWithSlash p then p +:+ "/" else cwd +:+ "/" +:+ p +:+ "/" in
  "/" +:+ normalizeString full false.

End NodePath.


(** ** Data model: [JsonReport['inputs']] *)

Inductive ModuleFormat := esm | cjs | unknown.

Record ModuleEntry := mkEntry {
  bytes : N;
  format : ModuleFormat;
  imports : list string;
  belongsTo : option string;
}.

#[global] Instance ModuleFormat_eq_dec : EqDecision ModuleFormat.
Proof. solve_decision. Defined.
#[global] Instance ModuleEntry_eq_dec : EqDecision ModuleEntry.
Proof. solve_decision. Defined.

(** The record every hook creates for a key it sees for the first time. *)
Definition defaultEntry : ModuleEntry :=
  {| bytes := 0; format := unknown; imports := []; belongsTo := None |}.

(** The object literal written by the attribution loop. *)
Definition virtualEntry (fmt : ModuleFormat) (path : string) : ModuleEntry :=
  {| bytes := 0; format := fmt; imports := []; belongsTo := Some path |}.

(** [Map.prototype.set] on an insertion-ordered [Map]. *)
Fixpoint mapSet {V : Type} (k : string) (v : V) (m : list (string * V)) : list (string * V) :=
  match m with
  | [] => [(k, v)]
  | (k', v') :: m' => if decide (k' = k) then (k, v) :: m' else (k', v') :: mapSet k v m'
  end.

(** [Map.prototype.get] *)
Fixpoint mapGet {V : Type} (k : string) (m : list (string * V)) : option V :=
  match m with
  | [] => None
  | (k', v) :: m' => if decide (k' = k) then Some v else mapGet k m'
  end.

(** The elements of a list in the order of their first occurrence, each
    once. *)
Fixpoint keepFirst (l : list string) : list string :=
  match l with
  | [] => []
  | x :: l' => x :: filter (λ y, y ≠ x) (keepFirst l')
  end.

(** ** Strings of UTF-16 code units and [Buffer.byteLength] (UTF-8) *)

Definition JsString := list N.

Definition isHighSurrogate (u : N) : bool := (55296 <=? u)%N && (u <=? 56319)%N.
Definition isLowSurrogate (u : N) : bool := (56320 <=? u)%N && (u <=? 57343)%N.

Fixpoint byteLength (s : JsString) : N :=
  match s with
  | [] => 0
  | u :: s' =>
      if (u <? 128)%N then 1 + byteLength s'
      else if (u <? 2048)%N then 2 + byteLength s'
      else if isHighSurrogate u then
        match s' with
        | v :: s'' => if isLowSurrogate v then 4 + byteLength s'' else 3 + byteLength s'
        | [] => 3
        end
      else 3 + byteLength s'
  end.

(** [RegExp.prototype.test] for the two patterns of [rollupHandler]; the
    pattern is anchored at the end of the input only. *)
Definition endsWith (suffix s : string) : bool :=
  bool_decide (list_ascii_of_string suffix `suffix_of` list_ascii_of_string s).


(** ** [utils.js] *)
Module Utils.

Definition backslash : ascii := "\"%char.

(** Modelled from the spec: the separator normalization of [normalizePath],
    every [\] is read as [/]. *)
Fixpoint toPosix (s : string) : string :=
  match s with
  | EmptyString => EmptyString
  | String a s' => String (if decide (a = backslash) then NodePath.slash else a) (toPosix s')
  end.

(** Modelled from the spec: the root-relative form of [normalizePath].  The
    segments of [path] as seen from the directory [root]: the common prefix
    is dropped and every remaining segment of [root] is left by a [..]. *)
Fixpoint relativeTo (root path : list string) : list string :=
  match root, path with
  | r :: root', p :: path' =>
      if decide (r = p) then relativeTo root' path'
      else (replicate (length root) ".." ++ path)%list
  | _, _ => (replicate (length root) ".." ++ path)%list
  end.

(** Modelled from the spec: [normalizePath] of [utils.js], which the plugin
    imports and which is not among the sources at hand.  Section 4.1 asks for
    a pure function from any absolute or relative identifier to a
    root-relative, separator-normalized key: both separator styles are read
    as [/], an absolute path is expressed relative to [root], and the
    segments [.], [..] and the empty segment are resolved. *)
Definition normalizePath (root path : string) : string :=
  let p := toPosix path in
  let segs := NodePath.splitOn NodePath.slash p in
  NodePath.joinWith NodePath.slash
    (if NodePath.startsWithSlash p
     then relativeTo
            (NodePath.normalizeSegments false (NodePath.splitOn NodePath.slash (toPosix root)))
            (NodePath.normalizeSegments false segs)
     else NodePath.normalizeSegments true segs).

(** Occurrence of a character in a string. *)
Fixpoint hasChar (c : ascii) (s : string) : bool :=
  match s with
  | EmptyString => false
  | String a s' => bool_decide (a = c) || hasChar c s'
  end.

(** A segment free of both separators. *)
Definition cleanSegment (s : string) : Prop :=
  hasChar NodePath.slash s = false ∧ hasChar backslash s = false.

(** A segment that names a file or directory. *)
Definition plainSegment (s : string) : Prop :=
  cleanSegment s ∧ s ≠ "" ∧ s ≠ "." ∧ s ≠ "..".

(** The shape of a key: some [..] segments, then plain segments. *)
Inductive Canonical : list string → Prop :=
  | Canonical_up l : Canonical l → Canonical (".." :: l)
  | Canonical_plain l : Forall plainSegment l → Canonical l.

(** The same shape on the stack of [normalizeStep], last segment first. *)
Definition CanonicalStack (st : list string) : Prop :=
  ∃ n rest, st = (rest ++ replicate n "..")%list ∧ Forall plainSegment rest.

End Utils.

(** ** Hooks of the plugin *)

Inductive Exn :=
  | JsError (message : string)
  | TypeError.

Inductive Outcome := Returned | Thrown (e : Exn).

Inductive Effect :=
  | WriteFile (path report : string)
  | OpenFile (path : string).

(** The variables captured by the closures of [factory]. *)
Record PluginState := mkState {
  outputDir : option string;
  assets : option (list string);
  inputs : gmap string ModuleEntry;
  sourcesGraph : list (string * list string);
}.

Definition initialState : PluginState :=
  {| outputDir := None; assets := None; inputs := ∅; sourcesGraph := [] |}.

(** What a hook leaves behind. *)
Record Step := mkStep {
  post : PluginState;
  effects : list Effect;
  outcome : Outcome;
}.

(** The arguments Rollup and Vite pass to [writeBundle]: the output options
    and the names of the chunks of the bundle ([Object.keys(bundle)]). *)
Record BundleArgs := mkBundleArgs {
  dir : option string;
  file : option string;
  bundle : list string;
}.

(** Rollup's [ModuleInfo]; [isCommonJS] is [module.meta.commonjs?.isCommonJS]
    when that is a boolean, and [None] for [undefined] and any other value. *)
Record ModuleInfo := mkModuleInfo {
  id : string;
  code : option JsString;
  isCommonJS : option bool;
  importedIds : list string;
}.

(** Webpack's [NormalModule]; [dependencies] holds, per dependency,
    [moduleGraph.getModule(dependency)?.resource]. *)
Record NormalModule := mkNormalModule {
  resource : string;
  type : string;
  dependencies : list (option string);
}.

Definition missingOutputMessage : string :=
  "Could not detect output assets. Please file an issue in the Sonar repository.".

(** ** Options of the two plugin factories *)
Module Factory.

(** A pattern without the global or sticky flag: [test] is a function of the
    input. *)
Definition RegExp := string → bool.

(** The object [Object.assign( {}, defaultOptions, options )] evaluates to;
    every property may hold [undefined]. *)
Record Options := mkOptions {
  include : option RegExp;
  exclude : option RegExp;
  open : option bool;
}.

(** The argument of [factory]: each key is absent, or present with a value
    that may be [undefined]. *)
Record PartialOptions := mkPartialOptions {
  includeKey : option (option RegExp);
  excludeKey : option (option RegExp);
  openKey : option (option bool);
}.

(** [Object.assign( {}, defaults, options )]: every own key of [options]
    overwrites, whatever its value; an [undefined] source is skipped. *)
Definition assign (defaults : Options) (options : option PartialOptions) : Options :=
  match options with
  | None => defaults
  | Some o =>
      {| include := default (include defaults) (includeKey o);
         exclude := default (exclude defaults) (excludeKey o);
         open := default (open defaults) (openKey o) |}
  end.

(** [defaultOptions] of the report plugin: [include] is [/(\.js|\.css)$/]. *)
Definition sonarDefaults : Options :=
  {| include := Some (λ i, endsWith ".js" i || endsWith ".css" i);
     exclude := None;
     open := Some true |}.

(** [defaultOptions] of unplugin-detailed-sourcemaps: [include] is
    [/\.js$/]; the plugin has no [open] option. *)
Definition sourcemapsDefaults : Options :=
  {| include := Some (endsWith ".js"); exclude := None; open := None |}.

(** [loadInclude]: [include.test( id ) && !exclude?.test( id )]. *)
Definition loadInclude (o : Options) (i : string) : Exn + bool :=
  match include o with
  | None => inl TypeError
  | Some inc =>
      inr (if inc i
           then negb (match exclude o with Some exc => exc i | None => false end)
           else false)
  end.

(** The truth value of the merged [open], as [generateReportFromAssets]
    tests it. *)
Definition shouldOpen (o : Options) : bool := default false (open o).

End Factory.

(** ** A sample project *)
Module Sample.

Definition root : string := "/home/u/proj".

Definition normalizePath : string → string := Utils.normalizePath root.

(** The source lists of the source maps found next to the loaded files. *)
Definition loadCodeAndMap (i : string) : option (list string) :=
  if decide (i = "/home/u/proj/a/b/bundle.js") then Some ["../x.ts"; "../y.ts"]
  else if decide (i = "/home/u/proj/a/b.js") then Some ["b.js"]
  else if decide (i = "/home/u/proj/p/a.js") then Some ["../shared/util.ts"]
  else if decide (i = "/home/u/proj/q/b.js") then Some ["../shared/util.ts"]
  else if decide (i = "/home/u/proj/dist/lib.js") then Some ["../src/lib.ts"]
  else None.

Definition generateHtmlReport (_ : list string) (_ : gmap string ModuleEntry)
  : option string := Some "<html></html>".

Definition rollupArgs : option BundleArgs :=
  Some {| dir := Some "dist"; file := None; bundle := ["index.js"] |}.

Definition bundleInputs : gmap string ModuleEntry :=
  {[ "a/b/bundle.js" := {| bytes := 238; format := esm; imports := []; belongsTo := None |} ]}.

Definition bundleGraph : list (string * list string) :=
  [("a/b/bundle.js", ["../x.ts"; "../y.ts"])].

Definition libSource : ModuleInfo :=
  {| id := "/home/u/proj/src/lib.ts";
     code := Some [120; 61; 49]%N;
     isCommonJS := Some false;
     importedIds := ["/home/u/proj/src/dep.ts"] |}.

Definition indexModule : ModuleInfo :=
  {| id := "/home/u/proj/src/index.mjs";
     code := Some [104; 233; 8364]%N;
     isCommonJS := None;
     importedIds := ["/home/u/proj/src/dep.ts"; "/home/u/proj/node_modules/react/index.js"] |}.

Definition mainModule : ModuleInfo :=
  {| id := "/home/u/proj/src/main.js";
     code := Some [120; 61; 49]%N;
     isCommonJS := Some true;
     importedIds := ["/home/u/proj/src/dep.ts"] |}.

Definition sharedInputs : gmap string ModuleEntry :=
  <["p/a.js" := defaultEntry]> {[ "q/b.js" := defaultEntry ]}.

Definition sharedGraph : list (string * list string) :=
  [("p/a.js", ["../shared/util.ts"]); ("q/b.js", ["../shared/util.ts"])].

Definition libInputs : gmap string ModuleEntry :=
  <["src/lib.ts" := {| bytes := 3; format := esm; imports := ["src/dep.ts"];
                       belongsTo := None |}]>
    {[ "dist/lib.js" := defaultEntry ]}.

Definition libGraph : list (string * list string) :=
  [("dist/lib.js", ["../src/lib.ts"])].

Definition mainModuleEdited : ModuleInfo :=
  {| id := "/home/u/proj/src/./main.js";
     code := Some [120; 61; 233; 59]%N;
     isCommonJS := Some false;
     importedIds := [] |}.

(** [p/one.js] lists [p/two.js] as a source, and [p/two.js] is a compiled
    module itself. *)
Definition chainInputs : gmap string ModuleEntry :=
  <["p/one.js" := {| bytes := 10; format := cjs; imports := []; belongsTo := None |}]>
    {[ "p/two.js" := {| bytes := 20; format := esm; imports := []; belongsTo := None |} ]}.

Definition chainGraph : list (string * list string) :=
  [("p/two.js", ["x.ts"]); ("p/one.js", ["two.js"])].

(** A source map that names [../x.ts] twice, for a module of 239 bytes. *)
Definition repeatInputs : gmap string ModuleEntry :=
  {[ "a/b/bundle.js" := {| bytes := 239; format := esm; imports := []; belongsTo := None |} ]}.

Definition repeatGraph : list (string * list string) :=
  [("a/b/bundle.js", ["../x.ts"; "../y.ts"; "../x.ts"])].

End Sample.

Section Plugin.

(** [normalizePath] of [utils.js], [loadCodeAndMap] of [sourcemap/load.js]
    (reduced to [result?.map?.sources]) and [generateHtmlReport] of
    [report.js] are imported by the plugin; [cwd] is [process.cwd()] and
    [open] the option of that name. *)
Variable normalizePath : string → string.
Variable loadCodeAndMap : string → option (list string).
Variable generateHtmlReport : list string → gmap string ModuleEntry → option string.
Variable cwd : string.
Variable open : bool.

Definition childKey (path source : string) : string :=
  normalizePath (NodePath.join (NodePath.dirname path) source).

(** The inner [sources.forEach] of [generateReportFromAssets]; [parent] was
    read before the loop and no record is mutated by it. *)
Definition attributeSources (parent : ModuleEntry) (path : string)
    (sources : list string) (inp : gmap string ModuleEntry) : gmap string ModuleEntry :=
  fold_left
    (λ acc source, <[childKey path source := virtualEntry (format parent) path]> acc)
    sources inp.

(** The outer [sourcesGraph.forEach].  Reading [parent.format] of a missing
    parent throws a [TypeError] at the first source. *)
Fixpoint attribute (graph : list (string * list string)) (inp : gmap string ModuleEntry)
  : gmap string ModuleEntry * Outcome :=
  match graph with
  | [] => (inp, Returned)
  | (path, sources) :: rest =>
      match inp !! path with
      | Some parent => attribute rest (attributeSources parent path sources inp)
      | None =>
          match sources with
          | [] => attribute rest inp
          | _ :: _ => (inp, Thrown TypeError)
          end
      end
  end.

(** [generateReportFromAssets].  The calls of [generateHtmlReport],
    [writeFileSync] and [open] are taken to return; what the function does
    when one of them throws is not modelled.  The attribution loop runs
    before all three, so the mapping it leaves does not depend on them. *)
Definition generateReportFromAssets (assetList : list string) (outDir : option string)
    (inp : gmap string ModuleEntry) (graph : list (string * list string)) (shouldOpen : bool)
  : gmap string ModuleEntry * list Effect * Outcome :=
  match attribute graph inp with
  | (inp', Thrown e) => (inp', [], Thrown e)
  | (inp', Returned) =>
      match generateHtmlReport assetList inp' with
      | None => (inp', [], Returned)
      | Some report =>
          if decide (report = "") then (inp', [], Returned)
          else match outDir with
               | None => (inp', [], Thrown TypeError)
               | Some d =>
                   let path := NodePath.join d "sonar-report.html" in
                   (inp', WriteFile path report :: (if shouldOpen then [OpenFile path] else []),
                    Returned)
               end
      end
  end.

Definition load (st : PluginState) (i : string) : PluginState :=
  let result := loadCodeAndMap i in
  let relativePath := normalizePath i in
  {| outputDir := outputDir st;
     assets := assets st;
     inputs := <[relativePath := defaultEntry]> (inputs st);
     sourcesGraph := match result with
                     | Some sources => mapSet relativePath sources (sourcesGraph st)
                     | None => sourcesGraph st
                     end |}.

Definition writeBundle (st : PluginState) (args : option BundleArgs) : Step :=
  match args, assets st with
  | None, None =>
      {| post := st; effects := []; outcome := Thrown (JsError missingOutputMessage) |}
  | None, Some assetList =>
      let '(inp', eff, out) :=
        generateReportFromAssets assetList (outputDir st) (inputs st) (sourcesGraph st) open in
      {| post := mkState (outputDir st) (assets st) inp' (sourcesGraph st);
         effects := eff; outcome := out |}
  | Some a, _ =>
      match (match dir a with
             | Some d => Some d
             | None => NodePath.dirname <$> file a
             end) with
      | None => {| post := st; effects := []; outcome := Thrown TypeError |}
      | Some d =>
          let outDir := NodePath.resolve cwd d in
          let assetList := map (NodePath.join outDir) (bundle a) in
          let '(inp', eff, out) :=
            generateReportFromAssets assetList (Some outDir) (inputs st) (sourcesGraph st) open in
          {| post := mkState (Some outDir) (Some assetList) inp' (sourcesGraph st);
             effects := eff; outcome := out |}
      end
  end.

(** [hooks.afterEmit] of the webpack integration. *)
Definition afterEmit (st : PluginState) (outputPath : option string) (names : list string)
  : PluginState :=
  let outDir := default cwd outputPath in
  {| outputDir := Some outDir;
     assets := Some (map (NodePath.join outDir) names);
     inputs := inputs st;
     sourcesGraph := sourcesGraph st |}.

Definition webpackFormat (ty : string) : ModuleFormat :=
  if decide (ty = "javascript/esm") then esm else cjs.

(** The body of the [forEach] of [hooks.optimizeModules]. *)
Definition optimizeModule (inp : gmap string ModuleEntry) (m : NormalModule)
  : gmap string ModuleEntry :=
  let resolvedDependencies := omap (λ r, r) (dependencies m) in
  match inp !! resource m with
  | Some existingInput =>
      <[resource m := {| bytes := bytes existingInput;
                         format := webpackFormat (type m);
                         imports := resolvedDependencies;
                         belongsTo := belongsTo existingInput |}]> inp
  | None =>
      <[normalizePath (resource m) :=
          {| bytes := 0;
             format := webpackFormat (type m);
             imports := map normalizePath resolvedDependencies;
             belongsTo := None |}]> inp
  end.

Definition optimizeModules (inp : gmap string ModuleEntry) (modules : list NormalModule)
  : gmap string ModuleEntry :=
  fold_left optimizeModule modules inp.

(** [esmRegex] is [/\.m[tj]sx?$/] and [cjsRegex] is [/\.c[tj]sx?$/]: the
    input ends with one of the four spellings of each. *)
Definition esmRegexTest (f : string) : bool :=
  endsWith ".mts" f || endsWith ".mjs" f || endsWith ".mtsx" f || endsWith ".mjsx" f.
Definition cjsRegexTest (f : string) : bool :=
  endsWith ".cts" f || endsWith ".cjs" f || endsWith ".ctsx" f || endsWith ".cjsx" f.

Definition guessFormat (f : string) : option ModuleFormat :=
  if esmRegexTest f then Some esm
  else if cjsRegexTest f then Some cjs
  else None.

(** [formats.get]: the map has the keys [true] and [false] only. *)
Definition formatsGet (flag : option bool) : option ModuleFormat :=
  match flag with
  | Some true => Some cjs
  | Some false => Some esm
  | None => None
  end.

(** [moduleParsed] of [rollupHandler]. *)
Definition moduleParsed (inp : gmap string ModuleEntry) (m : ModuleInfo)
  : gmap string ModuleEntry :=
  let key := normalizePath (id m) in
  let input := default defaultEntry (inp !! key) in
  <[key := {| bytes := match code m with
                       | Some (u :: c) => byteLength (u :: c)
                       | _ => 0
                       end;
              format := default unknown
                          (match formatsGet (isCommonJS m) with
                           | Some f => Some f
                           | None => guessFormat (id m)
                           end);
              imports := map normalizePath (importedIds m);
              belongsTo := belongsTo input |}]> inp.

(** The hooks as events, and the states the plugin can be in. *)
Inductive Event :=
  | Load (i : string)
  | ModuleParsed (m : ModuleInfo)
  | OptimizeModules (modules : list NormalModule)
  | AfterEmit (outputPath : option string) (names : list string)
  | WriteBundle (args : option BundleArgs).

Definition withInputs (st : PluginState) (inp : gmap string ModuleEntry) : PluginState :=
  {| outputDir := outputDir st; assets := assets st; inputs := inp;
     sourcesGraph := sourcesGraph st |}.

Definition fire (st : PluginState) (ev : Event) : PluginState :=
  match ev with
  | Load i => load st i
  | ModuleParsed m => withInputs st (moduleParsed (inputs st) m)
  | OptimizeModules ms => withInputs st (optimizeModules (inputs st) ms)
  | AfterEmit p names => afterEmit st p names
  | WriteBundle args => post (writeBundle st args)
  end.

Definition run (events : list Event) : PluginState := fold_left fire events initialState.

(** ** Size Analyzer *)

(** Modelled from the spec: the equal split of section 4.4, which no source
    at hand implements (the attribution loop leaves every virtual entry at
    [bytes = 0] and hands the mapping to [generateHtmlReport]).  [total] is
    split among [n] children; the rounding remainder goes to the first. *)
Definition equalShares (total : N) (n : nat) : list N :=
  match n with
  | O => []
  | S m =>
      let q := (total / N.of_nat n)%N in
      (q + total mod N.of_nat n)%N :: replicate m q
  end.

(** Modelled from the spec: the immediate virtual children of a compiled
    module, in source-map order (the order in which the sources first name
    them), each listed once. *)
Definition virtualChildren (inp : gmap string ModuleEntry) (path : string)
    (sources : list string) : list string :=
  keepFirst
    (filter (λ k, inp !! k ≫= belongsTo = Some path) (childKey path <$> sources)).

Definition setBytes (b : N) (e : ModuleEntry) : ModuleEntry :=
  {| bytes := b; format := format e; imports := imports e; belongsTo := belongsTo e |}.

Definition assignBytes (inp : gmap string ModuleEntry) (shares : list (string * N))
  : gmap string ModuleEntry :=
  fold_left (λ acc kb, alter (setBytes kb.2) kb.1 acc) shares inp.

(** Modelled from the spec: size distribution for one compiled module without
    mapped-range information. *)
Definition distributeSizes (inp : gmap string ModuleEntry) (pair : string * list string)
  : gmap string ModuleEntry :=
  match inp !! pair.1 with
  | Some parent =>
      let children := virtualChildren inp pair.1 pair.2 in
      assignBytes inp (zip children (equalShares (bytes parent) (length children)))
  | None => inp
  end.

(** Modelled from the spec: [computeSizes] over the whole source-map graph. *)
Definition computeSizes (graph : list (string * list string)) (inp : gmap string ModuleEntry)
  : gmap string ModuleEntry :=
  fold_left distributeSizes graph inp.

Definition bytesAt (inp : gmap string ModuleEntry) (k : string) : N :=
  from_option bytes 0%N (inp !! k).


(** ** Invariants of the plugin state *)

(** Every key of [sourcesGraph] has a record in [inputs]. *)
Definition graphKeysPresent (graph : list (string * list string))
    (inp : gmap string ModuleEntry) : Prop :=
  ∀ path sources, (path, sources) ∈ graph → is_Some (inp !! path).

(** Every [belongsTo] names a key of the mapping. *)
Definition parentsPresent (inp : gmap string ModuleEntry) : Prop :=
  ∀ k e p, inp !! k = Some e → belongsTo e = Some p → is_Some (inp !! p).

(** No record names its own key as [belongsTo]. *)
Definition noSelfParent (inp : gmap string ModuleEntry) : Prop :=
  ∀ k e, inp !! k = Some e → belongsTo e ≠ Some k.

(** [key] is the child key of some source of some pair of [graph]. *)
Definition producedBy (graph : list (string * list string)) (key : string) : Prop :=
  ∃ path sources source,
    (path, sources) ∈ graph ∧ source ∈ sources ∧ childKey path source = key.

(** A recorded asset list comes with an output directory. *)
Definition outputKnown (st : PluginState) : Prop :=
  is_Some (assets st) → is_Some (outputDir st).

(** [key] is the child key of some source of the list of [path]. *)
Definition produces (path : string) (sources : list string) (key : string) : Prop :=
  Exists (λ source, childKey path source = key) sources.


(** ** The attribution loop *)

Lemma attributeSources_app parent path l1 l2 (inp : gmap string ModuleEntry) :
  attributeSources parent path (l1 ++ l2) inp
  = attributeSources parent path l2 (attributeSources parent path l1 inp).
Proof. unfold attributeSources. apply fold_left_app. Qed.

Lemma attributeSources_cons parent path s l (inp : gmap string ModuleEntry) :
  attributeSources parent path (s :: l) inp
  = attributeSources parent path l (<[childKey path s := virtualEntry (format parent) path]> inp).
Proof. reflexivity. Qed.

Lemma attributeSources_other parent path sources (inp : gmap string ModuleEntry) key :
  (∀ source, source ∈ sources → childKey path source ≠ key) →
  attributeSources parent path sources inp !! key = inp !! key.
Proof.
  revert inp. induction sources as [|s sources IH]; intros inp Hne; [done|].
  rewrite attributeSources_cons, IH.
  - apply lookup_insert_ne, Hne. left.
  - intros s' Hs'. apply Hne. by right.
Qed.

Lemma attributeSources_written_key parent path sources (inp : gmap string ModuleEntry) key :
  Exists (λ source, childKey path source = key) sources →
  attributeSources parent path sources inp !! key = Some (virtualEntry (format parent) path).
Proof.
  revert inp. induction sources as [|s sources IH]; intros inp Hex.
  - by apply Exists_nil in Hex.
  - rewrite attributeSources_cons.
    destruct (decide (Exists (λ source, childKey path source = key) sources)) as [Hlater|Hlast].
    + by apply IH.
    + apply Exists_cons in Hex as [<-|Hex]; [|done].
      rewrite attributeSources_other; [apply lookup_insert_eq|].
      intros s' Hs' Heq. apply Hlast, Exists_exists. eauto.
Qed.

Lemma attributeSources_written parent path sources (inp : gmap string ModuleEntry) source :
  source ∈ sources →
  attributeSources parent path sources inp !! childKey path source
  = Some (virtualEntry (format parent) path).
Proof.
  intros Hin. apply attributeSources_written_key, Exists_exists. eauto.
Qed.

Lemma attributeSources_cases parent path sources (inp : gmap string ModuleEntry) key e :
  attributeSources parent path sources inp !! key = Some e →
  inp !! key = Some e
  ∨ (e = virtualEntry (format parent) path
     ∧ ∃ source, source ∈ sources ∧ childKey path source = key).
Proof.
  revert inp. induction sources as [|s sources IH]; intros inp Hl; [by left|].
  rewrite attributeSources_cons in Hl. apply IH in Hl as [Hl|(-> & s' & Hs' & Hk)].
  - destruct (decide (childKey path s = key)) as [<-|Hne].
    + rewrite lookup_insert_eq in Hl. injection Hl as <-.
      right. split; [done|]. exists s. split; [left|done].
    + rewrite lookup_insert_ne in Hl by done. by left.
  - right. split; [done|]. exists s'. split; [by right|done].
Qed.

Lemma attributeSources_present parent path sources (inp : gmap string ModuleEntry) key :
  is_Some (inp !! key) → is_Some (attributeSources parent path sources inp !! key).
Proof.
  revert inp. induction sources as [|s sources IH]; intros inp Hs; [done|].
  rewrite attributeSources_cons. apply IH. destruct (decide (childKey path s = key)) as [<-|Hne].
  - rewrite lookup_insert_eq. eauto.
  - by rewrite lookup_insert_ne.
Qed.

Lemma attribute_app g1 g2 (inp : gmap string ModuleEntry) :
  attribute (g1 ++ g2) inp
  = match attribute g1 inp with
    | (inp1, Returned) => attribute g2 inp1
    | (inp1, Thrown e) => (inp1, Thrown e)
    end.
Proof.
  revert inp. induction g1 as [|[path sources] g1 IH]; intros inp; [done|].
  cbn. destruct (inp !! path) as [parent|]; [apply IH|].
  destruct sources; [apply IH|done].
Qed.

Lemma attribute_present graph (inp : gmap string ModuleEntry) key :
  is_Some (inp !! key) → is_Some ((attribute graph inp).1 !! key).
Proof.
  revert inp. induction graph as [|[path sources] graph IH]; intros inp Hs; [done|].
  cbn. destruct (inp !! path) as [parent|].
  - by apply IH, attributeSources_present.
  - destruct sources; [by apply IH|done].
Qed.

Lemma producedBy_cons path sources graph key :
  producedBy ((path, sources) :: graph) key
  ↔ (∃ source, source ∈ sources ∧ childKey path source = key) ∨ producedBy graph key.
Proof.
  unfold producedBy. split.
  - intros (p & ss & s & Hin & Hs & Hk). apply elem_of_cons in Hin as [[= -> ->]|Hin].
    + left. eauto.
    + right. eauto 6.
  - intros [(s & Hs & Hk)|(p & ss & s & Hin & Hs & Hk)].
    + exists path, sources, s. split; [left|done].
    + exists p, ss, s. split; [by right|done].
Qed.

Lemma producedBy_app g1 g2 key :
  producedBy (g1 ++ g2) key ↔ producedBy g1 key ∨ producedBy g2 key.
Proof.
  unfold producedBy. split.
  - intros (p & ss & s & Hin & Hs & Hk). apply elem_of_app in Hin as [Hin|Hin];
      [left|right]; eauto 6.
  - intros [(p & ss & s & Hin & Hs & Hk)|(p & ss & s & Hin & Hs & Hk)];
      exists p, ss, s; (split; [apply elem_of_app; auto|done]).
Qed.

(** Keys that are no child key of the graph keep their record, whether the
    loop returns or throws. *)
Lemma attribute_other graph (inp : gmap string ModuleEntry) key :
  ¬ producedBy graph key → (attribute graph inp).1 !! key = inp !! key.
Proof.
  revert inp. induction graph as [|[path sources] graph IH]; intros inp Hno; [done|].
  assert (¬ producedBy graph key) as Hrest.
  { intros H. apply Hno, producedBy_cons. by right. }
  cbn. destruct (inp !! path) as [parent|].
  - rewrite IH by done. apply attributeSources_other.
    intros s Hs Hk. apply Hno, producedBy_cons. left. eauto.
  - destruct sources; [by apply IH|done].
Qed.

(** Every record of the result is either a record of the start or a virtual
    entry written for a source of a pair whose key is present in the result. *)
Lemma attribute_cases graph (inp : gmap string ModuleEntry) key e :
  (attribute graph inp).1 !! key = Some e →
  inp !! key = Some e
  ∨ ∃ path sources source fmt,
      (path, sources) ∈ graph ∧ source ∈ sources ∧ childKey path source = key
      ∧ e = virtualEntry fmt path ∧ is_Some ((attribute graph inp).1 !! path).
Proof.
  revert inp. induction graph as [|[path sources] graph IH]; intros inp Hl; [by left|].
  cbn in *. destruct (inp !! path) as [parent|] eqn:Hparent.
  - apply IH in Hl as [Hl|(p & ss & s & fmt & Hin & Hs & Hk & -> & Hp)].
    + apply attributeSources_cases in Hl as [Hl|(-> & s & Hs & Hk)]; [by left|].
      right. exists path, sources, s, (format parent).
      split_and!; [left|done|done|done|].
      apply attribute_present, attributeSources_present. eauto.
    + right. exists p, ss, s, fmt. split_and!; [by right|done..].
  - destruct sources as [|s0 sources].
    + apply IH in Hl as [Hl|(p & ss & s & fmt & Hin & Hs & Hk & -> & Hp)]; [by left|].
      right. exists p, ss, s, fmt. split_and!; [by right|done..].
    + by left.
Qed.

Lemma attribute_returns graph (inp : gmap string ModuleEntry) :
  graphKeysPresent graph inp → (attribute graph inp).2 = Returned.
Proof.
  revert inp. induction graph as [|[path sources] graph IH]; intros inp Hg; [done|].
  cbn. destruct (Hg path sources) as [parent Hparent]; [left|].
  rewrite Hparent. apply IH. intros p ss Hin.
  apply attributeSources_present, (Hg p ss). by right.
Qed.

(** ** Invariants along the hooks *)

Lemma parentsPresent_insert (inp : gmap string ModuleEntry) key e :
  parentsPresent inp →
  (∀ p, belongsTo e = Some p → p = key ∨ is_Some (inp !! p)) →
  parentsPresent (<[key := e]> inp).
Proof.
  intros Hinv He k e' p Hl Hb.
  destruct (decide (key = p)) as [->|Hp]; [rewrite lookup_insert_eq; eauto|].
  rewrite lookup_insert_ne by done.
  destruct (decide (key = k)) as [->|Hk].
  - rewrite lookup_insert_eq in Hl. injection Hl as <-.
    destruct (He p Hb) as [->|]; done.
  - rewrite lookup_insert_ne in Hl by done. eauto.
Qed.

Lemma present_insert (inp : gmap string ModuleEntry) key e k :
  is_Some (inp !! k) → is_Some (<[key := e]> inp !! k).
Proof.
  intros Hs. destruct (decide (key = k)) as [->|Hk].
  - rewrite lookup_insert_eq. eauto.
  - by rewrite lookup_insert_ne.
Qed.

Lemma attribute_parentsPresent graph (inp : gmap string ModuleEntry) :
  parentsPresent inp → parentsPresent (attribute graph inp).1.
Proof.
  intros Hinv k e p Hl Hb.
  apply attribute_cases in Hl as [Hl|(path & ss & s & fmt & _ & _ & _ & -> & Hp)].
  - apply attribute_present. eauto.
  - cbn in Hb. by injection Hb as <-.
Qed.

Lemma moduleParsed_lookup (inp : gmap string ModuleEntry) m :
  moduleParsed inp m !! normalizePath (id m)
  = Some {| bytes := match code m with
                     | Some (u :: c) => byteLength (u :: c)
                     | _ => 0%N
                     end;
            format := default unknown
                        (match formatsGet (isCommonJS m) with
                         | Some f => Some f
                         | None => guessFormat (id m)
                         end);
            imports := map normalizePath (importedIds m);
            belongsTo := belongsTo (default defaultEntry (inp !! normalizePath (id m))) |}.
Proof. unfold moduleParsed. apply lookup_insert_eq. Qed.

Lemma moduleParsed_other (inp : gmap string ModuleEntry) m key :
  key ≠ normalizePath (id m) → moduleParsed inp m !! key = inp !! key.
Proof. intros Hne. unfold moduleParsed. by apply lookup_insert_ne. Qed.

Lemma moduleParsed_present (inp : gmap string ModuleEntry) m k :
  is_Some (inp !! k) → is_Some (moduleParsed inp m !! k).
Proof. apply present_insert. Qed.

Lemma moduleParsed_parentsPresent (inp : gmap string ModuleEntry) m :
  parentsPresent inp → parentsPresent (moduleParsed inp m).
Proof.
  intros Hinv. apply parentsPresent_insert; [done|]. cbn. intros p Hb.
  destruct (inp !! normalizePath (id m)) as [e|] eqn:He; [|done].
  right. eauto.
Qed.

Lemma optimizeModule_present (inp : gmap string ModuleEntry) m k :
  is_Some (inp !! k) → is_Some (optimizeModule inp m !! k).
Proof.
  intros Hs. unfold optimizeModule. destruct (inp !! resource m); by apply present_insert.
Qed.

Lemma optimizeModule_parentsPresent (inp : gmap string ModuleEntry) m :
  parentsPresent inp → parentsPresent (optimizeModule inp m).
Proof.
  intros Hinv. unfold optimizeModule. destruct (inp !! resource m) as [e|] eqn:He.
  - apply parentsPresent_insert; [done|]. cbn. intros p Hb. right. eauto.
  - by apply parentsPresent_insert.
Qed.

Lemma optimizeModules_present (inp : gmap string ModuleEntry) ms k :
  is_Some (inp !! k) → is_Some (optimizeModules inp ms !! k).
Proof.
  revert inp. induction ms as [|m ms IH]; intros inp Hs; [done|].
  apply IH, optimizeModule_present, Hs.
Qed.

Lemma optimizeModules_parentsPresent (inp : gmap string ModuleEntry) ms :
  parentsPresent inp → parentsPresent (optimizeModules inp ms).
Proof.
  revert inp. induction ms as [|m ms IH]; intros inp Hinv; [done|].
  apply IH, optimizeModule_parentsPresent, Hinv.
Qed.

Lemma elem_of_mapSet {V} k (v : V) m k' v' :
  (k', v') ∈ mapSet k v m → (k', v') = (k, v) ∨ (k', v') ∈ m.
Proof.
  induction m as [|[k0 v0] m IH]; cbn.
  - intros ->%list_elem_of_singleton. by left.
  - destruct (decide (k0 = k)) as [->|Hne].
    + intros [->|Hin]%elem_of_cons; [by left|]. right. by right.
    + intros [->|Hin]%elem_of_cons; [right; left|].
      destruct (IH Hin) as [->|]; [by left|]. right. by right.
Qed.

Lemma generateReportFromAssets_inputs assetList outDir (inp : gmap string ModuleEntry)
    graph shouldOpen :
  (generateReportFromAssets assetList outDir inp graph shouldOpen).1.1
  = (attribute graph inp).1.
Proof.
  unfold generateReportFromAssets. destruct (attribute graph inp) as [inp' [|e]]; [|done].
  cbn. destruct (generateHtmlReport assetList inp') as [report|]; [|done].
  destruct (decide (report = "")); [done|]. by destruct outDir.
Qed.

Lemma writeBundle_post st args :
  post (writeBundle st args) = st
  ∨ (inputs (post (writeBundle st args)) = (attribute (sourcesGraph st) (inputs st)).1
     ∧ sourcesGraph (post (writeBundle st args)) = sourcesGraph st).
Proof.
  unfold writeBundle. destruct args as [a|].
  - destruct (match dir a with Some d => Some d | None => NodePath.dirname <$> file a end)
      as [d|]; [|by left].
    right. rewrite <- (generateReportFromAssets_inputs
      (map (NodePath.join (NodePath.resolve cwd d)) (bundle a))
      (Some (NodePath.resolve cwd d)) (inputs st) (sourcesGraph st) open).
    by destruct (generateReportFromAssets _ _ _ _ _) as [[? ?] ?].
  - destruct (assets st) as [assetList|]; [|by left].
    right. rewrite <- (generateReportFromAssets_inputs assetList (outputDir st)
      (inputs st) (sourcesGraph st) open).
    by destruct (generateReportFromAssets _ _ _ _ _) as [[? ?] ?].
Qed.

(** Both invariants hold in every state the hooks can reach. *)
Lemma fire_invariants st ev :
  graphKeysPresent (sourcesGraph st) (inputs st) ∧ parentsPresent (inputs st) →
  graphKeysPresent (sourcesGraph (fire st ev)) (inputs (fire st ev))
  ∧ parentsPresent (inputs (fire st ev)).
Proof.
  intros [Hg Hp]. destruct ev as [i|m|ms|p names|args]; cbn.
  - split.
    + intros path ss Hin. destruct (loadCodeAndMap i) as [sources|].
      * apply elem_of_mapSet in Hin as [[= -> ->]|Hin].
        -- rewrite lookup_insert_eq. eauto.
        -- eapply present_insert, Hg, Hin.
      * eapply present_insert, Hg, Hin.
    + by apply parentsPresent_insert.
  - split; [|by apply moduleParsed_parentsPresent].
    intros path ss Hin. eapply moduleParsed_present, Hg, Hin.
  - split; [|by apply optimizeModules_parentsPresent].
    intros path ss Hin. eapply optimizeModules_present, Hg, Hin.
  - done.
  - destruct (writeBundle_post st args) as [->|[-> ->]]; [done|]. split.
    + intros path ss Hin. eapply attribute_present, Hg, Hin.
    + by apply attribute_parentsPresent.
Qed.

Lemma run_invariants events :
  graphKeysPresent (sourcesGraph (run events)) (inputs (run events))
  ∧ parentsPresent (inputs (run events)).
Proof.
  unfold run. induction events as [|ev events IH] using rev_ind.
  - split; [intros ? ? Hin; by apply elem_of_nil in Hin|intros k e p Hl; done].
  - rewrite fold_left_app. cbn. by apply fire_invariants.
Qed.

(** ** Properties of the attribution loop *)

(** C1.  In every state the hooks can reach, for a compiled module [path]
    of the source-map graph and every [source] of its list: the record
    [parent] of [path] is in the mapping when its turn comes, the loop
    computes the child key [normalizePath (join (dirname path) source)], and
    once the list of [path] is processed the mapping holds under that key a
    virtual entry with [bytes = 0], [imports = []], [belongsTo = path] and
    the format of [parent]. *)
Theorem attribution_records_virtual_entry events pre path sources post source :
  sourcesGraph (run events) = (pre ++ (path, sources) :: post)%list →
  source ∈ sources →
  ∃ mid parent,
    attribute pre (inputs (run events)) = (mid, Returned)
    ∧ mid !! path = Some parent
    ∧ attribute (pre ++ [(path, sources)]) (inputs (run events))
      = (attributeSources parent path sources mid, Returned)
    ∧ attributeSources parent path sources mid
        !! normalizePath (NodePath.join (NodePath.dirname path) source)
      = Some {| bytes := 0; format := format parent; imports := [];
                belongsTo := Some path |}.
Proof.
  intros Hgraph Hin. destruct (run_invariants events) as [Hkeys _].
  rewrite Hgraph in Hkeys.
  assert ((attribute pre (inputs (run events))).2 = Returned) as Hret.
  { apply attribute_returns. intros p ss Hp. apply (Hkeys p ss), elem_of_app. by left. }
  destruct (attribute pre (inputs (run events))) as [mid o] eqn:Hpre.
  cbn in Hret. subst o.
  assert (is_Some (mid !! path)) as [parent Hparent].
  { replace mid with (attribute pre (inputs (run events))).1 by (by rewrite Hpre).
    apply attribute_present, (Hkeys path sources), elem_of_app. right. left. }
  exists mid, parent. split_and!; [done|done| |].
  - rewrite attribute_app, Hpre. cbn. by rewrite Hparent.
  - by apply attributeSources_written.
Qed.

(** C3, as amended.  Attribution has no self-reference guard.  When no entry
    of the starting mapping belongs to itself and no source of a compiled
    module normalizes to that module's own key, no entry of the resulting
    mapping has its own key as [belongsTo]. *)
Theorem attribution_no_self_parent_without_self_source
    graph (inp : gmap string ModuleEntry) :
  noSelfParent inp →
  (∀ path sources source,
      (path, sources) ∈ graph → source ∈ sources →
      normalizePath (NodePath.join (NodePath.dirname path) source) ≠ path) →
  noSelfParent (attribute graph inp).1.
Proof.
  intros Hinp Hsrc k e Hl Hb.
  apply attribute_cases in Hl as [Hl|(path & ss & s & fmt & Hin & Hs & Hk & -> & _)].
  - by apply (Hinp k e).
  - cbn in Hb. injection Hb as ->. by apply (Hsrc k ss s).
Qed.

(** C4, as amended.  The loop overwrites: the compiled module that produces a
    child key last determines the entry of that key (last writer wins), and
    the mapping holds exactly one entry for the key. *)
Theorem attribution_last_writer_wins
    pre path sources post (inp mid : gmap string ModuleEntry) parent source :
  attribute pre inp = (mid, Returned) →
  mid !! path = Some parent →
  source ∈ sources →
  ¬ producedBy post (childKey path source) →
  let final := (attribute (pre ++ (path, sources) :: post) inp).1 in
  final !! childKey path source
  = Some {| bytes := 0; format := format parent; imports := []; belongsTo := Some path |}
  ∧ ∀ e, final !! childKey path source = Some e → belongsTo e = Some path.
Proof.
  intros Hpre Hparent Hin Hpost final.
  assert (final !! childKey path source = Some (virtualEntry (format parent) path))
    as Hfinal.
  { unfold final. rewrite attribute_app, Hpre. cbn. rewrite Hparent.
    rewrite attribute_other by done. by apply attributeSources_written. }
  split; [done|]. intros e He. rewrite Hfinal in He. by injection He as <-.
Qed.

(** C5, as amended.  A record that sits under a computed child key is
    replaced by the virtual entry, also when it is a real module
    ([belongsTo = None]); the records of all keys that are no child key of
    the graph are left as they are. *)
Theorem attribution_replaces_child_keys_only
    pre path sources (inp mid : gmap string ModuleEntry) parent source real :
  attribute pre inp = (mid, Returned) →
  mid !! path = Some parent →
  source ∈ sources →
  mid !! childKey path source = Some real →
  belongsTo real = None →
  (attribute (pre ++ [(path, sources)]) inp).1 !! childKey path source
  = Some {| bytes := 0; format := format parent; imports := []; belongsTo := Some path |}
  ∧ ∀ graph key, ¬ producedBy graph key → (attribute graph inp).1 !! key = inp !! key.
Proof.
  intros Hpre Hparent Hin _ _. split.
  - rewrite attribute_app, Hpre. cbn. rewrite Hparent. cbn.
    by apply attributeSources_written.
  - intros graph key. apply attribute_other.
Qed.

(** ** [writeBundle] *)



(** ** The adapters: [moduleParsed], [optimizeModules], [load] *)

Lemma endsWith_comparable a b f :
  endsWith a f = true → endsWith b f = true → endsWith a b || endsWith b a = true.
Proof.
  unfold endsWith. intros Ha%bool_decide_eq_true_1 Hb%bool_decide_eq_true_1.
  destruct (suffix_weak_total _ _ _ Ha Hb) as [H|H].
  - by rewrite (bool_decide_eq_true_2 _ H).
  - rewrite (bool_decide_eq_true_2 _ H). apply orb_true_r.
Qed.

Ltac endsWith_clash :=
  match goal with
  | Ha : endsWith ?a ?f = true, Hb : endsWith ?b ?f = true |- _ =>
      pose proof (endsWith_comparable a b f Ha Hb) as Hclash;
      vm_compute in Hclash; discriminate Hclash
  end.

(** No id matches both patterns. *)
Lemma regex_exclusive f : esmRegexTest f = true → cjsRegexTest f = false.
Proof.
  unfold esmRegexTest, cjsRegexTest. intros Hesm.
  apply not_true_is_false. intros Hcjs.
  repeat (apply orb_true_iff in Hesm as [Hesm|Hesm]);
    repeat (apply orb_true_iff in Hcjs as [Hcjs|Hcjs]); endsWith_clash.
Qed.

(** C10.  The record [moduleParsed] leaves under the normalized id of a
    module: [bytes] is the UTF-8 byte length of the code, and 0 without code;
    [format] is [cjs] for the commonjs flag [true], [esm] for [false], and
    otherwise [esm] or [cjs] when the id ends in [.m[tj]sx?] or
    [.c[tj]sx?], [unknown] when it ends in neither; [imports] is the list of
    the normalized imported ids. *)
Theorem moduleParsed_records_module (inp : gmap string ModuleEntry) m :
  ∃ e, moduleParsed inp m !! normalizePath (id m) = Some e
    ∧ (∀ c, code m = Some c → bytes e = byteLength c)
    ∧ (code m = None → bytes e = 0%N)
    ∧ (isCommonJS m = Some true → format e = cjs)
    ∧ (isCommonJS m = Some false → format e = esm)
    ∧ (isCommonJS m = None → esmRegexTest (id m) = true → format e = esm)
    ∧ (isCommonJS m = None → cjsRegexTest (id m) = true → format e = cjs)
    ∧ (isCommonJS m = None → esmRegexTest (id m) = false →
       cjsRegexTest (id m) = false → format e = unknown)
    ∧ imports e = map normalizePath (importedIds m).
Proof.
  eexists. split; [apply moduleParsed_lookup|]. cbn. split_and!.
  - intros c ->. by destruct c.
  - by intros ->.
  - by intros ->.
  - by intros ->.
  - intros -> Hesm. cbn. unfold guessFormat. by rewrite Hesm.
  - intros -> Hcjs. cbn. unfold guessFormat. rewrite Hcjs.
    destruct (esmRegexTest (id m)) eqn:Hesm; [|done].
    apply regex_exclusive in Hesm. congruence.
  - intros -> Hesm Hcjs. cbn. unfold guessFormat. by rewrite Hesm, Hcjs.
  - done.
Qed.

(** ** Size distribution *)





Lemma assignBytes_present (inp : gmap string ModuleEntry) shares k :
  is_Some (inp !! k) → is_Some (assignBytes inp shares !! k).
Proof.
  revert inp. induction shares as [|[k0 b0] shares IH]; intros inp Hk; [done|].
  unfold assignBytes in *. cbn. apply IH. by apply lookup_alter_is_Some.
Qed.















(** ** More on the attribution loop *)

Lemma produces_spec path sources key :
  produces path sources key ↔ ∃ source, source ∈ sources ∧ childKey path source = key.
Proof. unfold produces. by rewrite Exists_exists. Qed.

Lemma producedBy_snoc graph path sources key :
  producedBy (graph ++ [(path, sources)]) key
  ↔ producedBy graph key ∨ produces path sources key.
Proof.
  rewrite producedBy_app, produces_spec. split.
  - intros [H|(p & ss & s & Hin & Hs & Hk)]; [by left|].
    apply list_elem_of_singleton in Hin. injection Hin as -> ->. right. eauto.
  - intros [H|(s & Hs & Hk)]; [by left|]. right.
    exists path, sources, s. split; [by apply list_elem_of_singleton|done].
Qed.

(** The last pair of the graph that produces a key. *)
Lemma producedBy_last graph key :
  producedBy graph key →
  ∃ pre path sources post,
    graph = (pre ++ (path, sources) :: post)%list
    ∧ produces path sources key ∧ ¬ producedBy post key.
Proof.
  induction graph as [|[path sources] graph IH] using rev_ind.
  - intros (p & ss & s & Hin & _). by apply elem_of_nil in Hin.
  - intros Hprod. destruct (decide (produces path sources key)) as [Hlast|Hnot].
    + exists graph, path, sources, []. split_and!; [done|done|].
      intros (p & ss & s & Hin & _). by apply elem_of_nil in Hin.
    + apply producedBy_snoc in Hprod as [Hprod|]; [|done].
      destruct (IH Hprod) as (pre & p & ss & post & -> & Hp & Hpost).
      exists pre, p, ss, (post ++ [(path, sources)])%list. split_and!; [|done|].
      * by rewrite <- app_assoc.
      * intros [H|H]%producedBy_snoc; done.
Qed.


(** When the whole loop returns, it returned before each pair, and the
    record of a pair with a source was there at its turn. *)
Lemma attribute_returned_split pre path sources post (inp : gmap string ModuleEntry) :
  (attribute (pre ++ (path, sources) :: post) inp).2 = Returned →
  (attribute pre inp).2 = Returned
  ∧ (sources ≠ [] → is_Some ((attribute pre inp).1 !! path)).
Proof.
  rewrite attribute_app. destruct (attribute pre inp) as [mid [|e]]; [|done].
  cbn. intros Hret. split; [done|]. intros Hne.
  destruct (mid !! path); [eauto|]. by destruct sources.
Qed.

Lemma attribute_last_producer
    pre path sources post (inp : gmap string ModuleEntry) parent key :
  (attribute pre inp).2 = Returned →
  (attribute pre inp).1 !! path = Some parent →
  produces path sources key →
  ¬ producedBy post key →
  (attribute (pre ++ (path, sources) :: post) inp).1 !! key
  = Some (virtualEntry (format parent) path).
Proof.
  intros Hret Hparent Hprod Hpost. rewrite attribute_app.
  destruct (attribute pre inp) as [mid o]. cbn in Hret, Hparent. subst o.
  cbn. rewrite Hparent. rewrite attribute_other by done.
  by apply attributeSources_written_key.
Qed.

Lemma produces_nonempty path sources key : produces path sources key → sources ≠ [].
Proof. intros H ->. by apply Exists_nil in H. Qed.

(** X1.  The attribution loop deletes nothing and adds exactly the child
    keys: when it returns, the keys of the mapping are the keys it started
    with and the child keys of the graph. *)
Theorem attribute_keys_are_old_and_child_keys graph (inp : gmap string ModuleEntry) key :
  (attribute graph inp).2 = Returned →
  is_Some ((attribute graph inp).1 !! key)
  ↔ is_Some (inp !! key)
    ∨ ∃ path sources source,
        (path, sources) ∈ graph ∧ source ∈ sources
        ∧ normalizePath (NodePath.join (NodePath.dirname path) source) = key.
Proof.
  intros Hret. split.
  - intros [e He]. apply attribute_cases in He as [He|(p & ss & s & _ & Hin & Hs & Hk & _)].
    + left. eauto.
    + right. exists p, ss, s. done.
  - intros [Hin|Hprod]; [by apply attribute_present|].
    destruct (producedBy_last graph key Hprod) as (pre & p & ss & post & -> & Hp & Hpost).
    destruct (attribute_returned_split pre p ss post inp Hret) as [Hpre Hparent].
    destruct (Hparent (produces_nonempty _ _ _ Hp)) as [parent Hpar].
    rewrite (attribute_last_producer pre p ss post inp parent key); eauto.
Qed.

(** X2.  The loop throws only a [TypeError], and exactly when some pair with
    a non-empty source list has no record at its turn; the mapping then
    holds the attributions of the pairs before that one and nothing of the
    pairs after it. *)
Theorem attribute_throws_at_first_missing_parent
    graph (inp out : gmap string ModuleEntry) e :
  attribute graph inp = (out, Thrown e)
  ↔ e = TypeError
    ∧ ∃ pre path source sources post,
        graph = (pre ++ (path, source :: sources) :: post)%list
        ∧ attribute pre inp = (out, Returned)
        ∧ out !! path = None.
Proof.
  split.
  - revert inp. induction graph as [|[path sources] graph IH]; intros inp; [done|].
    cbn. destruct (inp !! path) as [parent|] eqn:Hparent.
    + intros (-> & pre & p & s & ss & post & -> & Hpre & Hnone)%IH. split; [done|].
      exists ((path, sources) :: pre), p, s, ss, post. split_and!; [done| |done].
      cbn. by rewrite Hparent.
    + destruct sources as [|s0 sources].
      * intros (-> & pre & p & s & ss & post & -> & Hpre & Hnone)%IH. split; [done|].
        exists ((path, []) :: pre), p, s, ss, post. split_and!; [done| |done].
        cbn. by rewrite Hparent.
      * intros [= <- <-]. split; [done|]. by exists [], path, s0, sources, graph.
  - intros (-> & pre & p & s & ss & post & -> & Hpre & Hnone).
    rewrite attribute_app, Hpre. cbn. by rewrite Hnone.
Qed.

Lemma attribute_returns_nonempty graph (inp : gmap string ModuleEntry) :
  (∀ path source sources, (path, source :: sources) ∈ graph → is_Some (inp !! path)) →
  (attribute graph inp).2 = Returned.
Proof.
  revert inp. induction graph as [|[path sources] graph IH]; intros inp Hg; [done|].
  cbn. destruct (inp !! path) as [parent|] eqn:Hparent.
  - apply IH. intros p s ss Hin. eapply attributeSources_present, Hg. by right.
  - destruct sources as [|s0 sources].
    + apply IH. intros p s ss Hin. eapply Hg. by right.
    + destruct (Hg path s0 sources) as [? ?]; [left|congruence].
Qed.

(** The record of a key after the loop, when no key of the graph is a child
    key: the record it had, or the virtual entry of the last pair that
    produces the key, with the format that pair's record had at the start. *)
Lemma attribute_lookup_stable_parents graph (inp : gmap string ModuleEntry) key :
  (attribute graph inp).2 = Returned →
  (∀ path sources, (path, sources) ∈ graph → ¬ producedBy graph path) →
  (¬ producedBy graph key ∧ (attribute graph inp).1 !! key = inp !! key)
  ∨ ∃ pre path sources post parent,
      graph = (pre ++ (path, sources) :: post)%list
      ∧ produces path sources key ∧ ¬ producedBy post key
      ∧ inp !! path = Some parent
      ∧ (attribute graph inp).1 !! path = Some parent
      ∧ (attribute graph inp).1 !! key = Some (virtualEntry (format parent) path).
Proof.
  intros Hret Hkeys.
  destruct (decide (Exists (λ pair, produces pair.1 pair.2 key) graph)) as [Hex|Hno].
  - right. assert (producedBy graph key) as Hprod.
    { apply Exists_exists in Hex as ([p ss] & Hin & (s & Hs & Hk)%produces_spec).
      by exists p, ss, s. }
    destruct (producedBy_last graph key Hprod) as (pre & p & ss & post & Hg & Hp & Hpost).
    assert (¬ producedBy graph p) as Hnp.
    { apply (Hkeys p ss). rewrite Hg. apply elem_of_app. right. left. }
    assert (¬ producedBy pre p) as Hnpre.
    { intros H. apply Hnp. rewrite Hg. apply producedBy_app. by left. }
    pose proof Hret as Hret'. rewrite Hg in Hret'.
    destruct (attribute_returned_split pre p ss post inp Hret') as [Hpre Hparent].
    destruct (Hparent (produces_nonempty _ _ _ Hp)) as [parent Hpar].
    exists pre, p, ss, post, parent. split_and!; [done|done|done| | |].
    + by rewrite <- (attribute_other pre inp p Hnpre).
    + rewrite (attribute_other graph inp p Hnp).
      by rewrite <- (attribute_other pre inp p Hnpre).
    + rewrite Hg. by apply attribute_last_producer.
  - left. assert (¬ producedBy graph key) as Hnot.
    { intros (p & ss & s & Hin & Hs & Hk). apply Hno, Exists_exists.
      exists (p, ss). split; [done|]. apply produces_spec. eauto. }
    split; [done|]. by apply attribute_other.
Qed.

(** X3.  When no compiled module of the graph is itself a child key, a
    second run of the attribution loop changes nothing: the loop returns
    again, with the same mapping. *)
Theorem attribute_twice graph (inp : gmap string ModuleEntry) :
  (attribute graph inp).2 = Returned →
  (∀ path sources, (path, sources) ∈ graph → ¬ producedBy graph path) →
  attribute graph (attribute graph inp).1 = attribute graph inp.
Proof.
  intros Hret Hkeys.
  assert ((attribute graph (attribute graph inp).1).2 = Returned) as Hret2.
  { apply attribute_returns_nonempty. intros p s ss Hin.
    apply attribute_present.
    apply list_elem_of_split in Hin as (pre & post & Hg).
    pose proof Hret as Hret'. rewrite Hg in Hret'.
    destruct (attribute_returned_split pre p (s :: ss) post inp Hret') as [_ Hparent].
    destruct (Hparent ltac:(done)) as [parent Hpar].
    rewrite attribute_other in Hpar; [eauto|].
    intros H. apply (Hkeys p (s :: ss)); [rewrite Hg; apply elem_of_app; right; left|].
    rewrite Hg. apply producedBy_app. by left. }
  destruct (attribute graph (attribute graph inp).1) as [out2 o2] eqn:H2.
  destruct (attribute graph inp) as [out1 o1] eqn:H1.
  cbn in *. subst o1 o2. f_equal. apply map_eq. intros key.
  assert (out2 = (attribute graph out1).1) as -> by (by rewrite H2).
  assert (out1 = (attribute graph inp).1) as Hout1 by (by rewrite H1).
  destruct (attribute_lookup_stable_parents graph out1 key) as
    [[_ Heq]|(pre & p & ss & post & parent & Hg & Hp & Hpost & Hpar & _ & Hkey)];
    [by rewrite H2|done|done|].
  rewrite Hkey.
  destruct (attribute_lookup_stable_parents graph inp key) as
    [[Hnot _]|(pre' & p' & ss' & post' & parent' & Hg' & Hp' & Hpost' & _ & Hpar' & Hkey')];
    [by rewrite H1|done| |].
  - exfalso. apply Hnot. apply produces_spec in Hp as (s & Hs & Hk).
    exists p, ss, s. split; [|done]. rewrite Hg. apply elem_of_app. right. left.
  - rewrite <- Hout1 in Hkey'. rewrite Hkey'.
    assert (pre = pre' ∧ (p, ss) = (p', ss')) as [_ [= <- <-]].
    { clear -Hg Hg' Hp Hp' Hpost Hpost'. subst graph.
      revert pre' Hg'. induction pre as [|x pre IH]; intros [|y pre'] Hg'; cbn in Hg'.
      - by injection Hg' as -> -> _.
      - injection Hg' as <- ->. exfalso. apply Hpost, producedBy_app. right.
        apply producedBy_cons. left. by apply produces_spec.
      - injection Hg' as -> <-. exfalso. apply Hpost', producedBy_app. right.
        apply producedBy_cons. left. by apply produces_spec.
      - injection Hg' as -> Hg'. destruct (IH pre' Hg') as [-> ?]. done. }
    rewrite <- Hout1 in Hpar'. rewrite Hpar in Hpar'. by injection Hpar' as ->.
Qed.

(** X4.  When no compiled module of the graph is itself a child key, every
    child key carries, after the loop, the format of the record of the
    module it belongs to, and that record is still in the mapping as it
    was. *)
Theorem attribute_children_inherit_format graph (inp : gmap string ModuleEntry) key :
  (attribute graph inp).2 = Returned →
  (∀ path sources, (path, sources) ∈ graph → ¬ producedBy graph path) →
  producedBy graph key →
  ∃ path parent,
    (attribute graph inp).1 !! key
    = Some {| bytes := 0; format := format parent; imports := []; belongsTo := Some path |}
    ∧ (attribute graph inp).1 !! path = Some parent
    ∧ inp !! path = Some parent.
Proof.
  intros Hret Hkeys Hprod.
  destruct (attribute_lookup_stable_parents graph inp key Hret Hkeys) as
    [[Hnot _]|(pre & p & ss & post & parent & _ & _ & _ & Hpar & Hpar' & Hkey)]; [done|].
  by exists p, parent.
Qed.

(** ** More on [writeBundle] *)

Lemma generateReportFromAssets_cases assetList outDir (inp : gmap string ModuleEntry)
    graph shouldOpen :
  let r := generateReportFromAssets assetList outDir inp graph shouldOpen in
  r.1.1 = (attribute graph inp).1
  ∧ ((r.1.2 = [] ∧ (r.2 = Returned → (attribute graph inp).2 = Returned))
     ∨ ∃ d report,
         outDir = Some d ∧ (attribute graph inp).2 = Returned
         ∧ generateHtmlReport assetList (attribute graph inp).1 = Some report
         ∧ report ≠ "" ∧ r.2 = Returned
         ∧ r.1.2 = WriteFile (NodePath.join d "sonar-report.html") report
                   :: (if shouldOpen
                       then [OpenFile (NodePath.join d "sonar-report.html")] else [])).
Proof.
  unfold generateReportFromAssets. destruct (attribute graph inp) as [inp' [|e]]; cbn.
  - destruct (generateHtmlReport assetList inp') as [report|] eqn:Hreport; cbn.
    + destruct (decide (report = "")) as [Hempty|Hne]; cbn.
      * split; [done|]. left. by split.
      * destruct outDir as [d|]; cbn.
        -- split; [done|]. right. by exists d, report.
        -- split; [done|]. left. by split.
    + split; [done|]. left. by split.
  - split; [done|]. left. by split.
Qed.

Lemma generateReportFromAssets_returns assetList d (inp : gmap string ModuleEntry)
    graph shouldOpen :
  (attribute graph inp).2 = Returned →
  (generateReportFromAssets assetList (Some d) inp graph shouldOpen).2 = Returned.
Proof.
  unfold generateReportFromAssets. destruct (attribute graph inp) as [inp' o]. cbn.
  intros ->. destruct (generateHtmlReport assetList inp') as [report|]; [|done].
  by destruct (decide (report = "")).
Qed.

Lemma fire_outputKnown st ev : outputKnown st → outputKnown (fire st ev).
Proof.
  unfold outputKnown. intros Hst.
  destruct ev as [i|m|ms|p names|args]; cbn; [exact Hst..|by eauto|].
  unfold writeBundle. destruct args as [a|].
  - destruct (match dir a with Some d => Some d | None => NodePath.dirname <$> file a end)
      as [d|]; [|exact Hst].
    destruct (generateReportFromAssets _ _ _ _ _) as [[? ?] ?]. cbn. eauto.
  - destruct (assets st) as [assetList|] eqn:Hassets; cbn.
    + destruct (generateReportFromAssets _ _ _ _ _) as [[? ?] ?]. cbn. exact Hst.
    + rewrite Hassets. by intros [? ?].
Qed.

Lemma run_outputKnown events : outputKnown (run events).
Proof.
  unfold run. induction events as [|ev events IH] using rev_ind.
  - intros [? ?]. done.
  - rewrite fold_left_app. cbn. by apply fire_outputKnown.
Qed.

(** X6.  Whatever the state, [writeBundle] either has no file effect, or it
    returns after writing the text [generateHtmlReport] gave for the
    recorded assets and the attributed mapping, a non-empty text, to
    [sonar-report.html] in the recorded output directory, and it opens that
    file afterwards exactly when the option [open] is set. *)
Theorem writeBundle_writes_the_report st args :
  let r := writeBundle st args in
  effects r = []
  ∨ ∃ d assetList report,
      outputDir (post r) = Some d
      ∧ assets (post r) = Some assetList
      ∧ generateHtmlReport assetList (inputs (post r)) = Some report
      ∧ report ≠ ""
      ∧ outcome r = Returned
      ∧ effects r = WriteFile (NodePath.join d "sonar-report.html") report
                    :: (if open then [OpenFile (NodePath.join d "sonar-report.html")]
                        else []).
Proof.
  intros r. subst r. unfold writeBundle. destruct args as [a|].
  - destruct (match dir a with Some d => Some d | None => NodePath.dirname <$> file a end)
      as [d|]; [|by left].
    destruct (generateReportFromAssets_cases
      (map (NodePath.join (NodePath.resolve cwd d)) (bundle a))
      (Some (NodePath.resolve cwd d)) (inputs st) (sourcesGraph st) open)
      as [Hinp [[Heff _]|(d' & report & [= <-] & _ & Hrep & Hne & Hout & Heff)]];
      destruct (generateReportFromAssets _ _ _ _ _) as [[inp' eff] out];
      cbn in *; subst; [by left|].
    right. by exists (NodePath.resolve cwd d),
      (map (NodePath.join (NodePath.resolve cwd d)) (bundle a)), report.
  - destruct (assets st) as [assetList|] eqn:Hassets; [|by left].
    destruct (generateReportFromAssets_cases assetList (outputDir st) (inputs st)
      (sourcesGraph st) open)
      as [Hinp [[Heff _]|(d' & report & Hd & _ & Hrep & Hne & Hout & Heff)]];
      destruct (generateReportFromAssets _ _ _ _ _) as [[inp' eff] out];
      cbn in *; subst; [by left|].
    right. by exists d', assetList, report.
Qed.

(** ** The mapping and the graph along the hooks *)

Lemma fire_present st ev key :
  is_Some (inputs st !! key) → is_Some (inputs (fire st ev) !! key).
Proof.
  intros Hs. destruct ev as [i|m|ms|p names|args]; cbn.
  - by apply present_insert.
  - by apply moduleParsed_present.
  - by apply optimizeModules_present.
  - done.
  - destruct (writeBundle_post st args) as [->|[-> _]]; [done|].
    by apply attribute_present.
Qed.

Lemma mapSet_keys {V} k (v : V) m :
  (mapSet k v m).*1 = if decide (k ∈ m.*1) then m.*1 else (m.*1 ++ [k])%list.
Proof.
  induction m as [|[k0 v0] m IH]; [done|]. cbn.
  destruct (decide (k0 = k)) as [->|Hne]; cbn.
  - rewrite decide_True; [done|left].
  - rewrite IH. destruct (decide (k ∈ m.*1)) as [Hin|Hnot].
    + rewrite decide_True; [done|by right].
    + rewrite decide_False; [done|]. intros [->|?]%elem_of_cons; done.
Qed.

Lemma mapGet_mapSet {V} k (v : V) m k' :
  mapGet k' (mapSet k v m) = if decide (k = k') then Some v else mapGet k' m.
Proof.
  induction m as [|[k0 v0] m IH]; cbn.
  - by destruct (decide (k = k')).
  - destruct (decide (k0 = k)) as [->|Hne]; cbn.
    + by destruct (decide (k = k')).
    + rewrite IH. destruct (decide (k0 = k')) as [->|]; [|done].
      by rewrite decide_False.
Qed.

Lemma fire_graph_keys st ev :
  NoDup (sourcesGraph st).*1 →
  NoDup (sourcesGraph (fire st ev)).*1
  ∧ ∀ key, key ∈ (sourcesGraph st).*1 → key ∈ (sourcesGraph (fire st ev)).*1.
Proof.
  intros Hnd. destruct ev as [i|m|ms|p names|args]; cbn; try done.
  - destruct (loadCodeAndMap i) as [sources|]; [|done]. rewrite mapSet_keys.
    destruct (decide (normalizePath i ∈ (sourcesGraph st).*1)); [done|]. split.
    + apply NoDup_app. split_and!; [done| |apply NoDup_singleton].
      intros k Hk ->%list_elem_of_singleton. done.
    + intros key Hk. apply elem_of_app. by left.
  - by destruct (writeBundle_post st args) as [->|[_ ->]].
Qed.

(** X7.  No hook removes anything: a key of [inputs] stays a key of
    [inputs], and a key of [sourcesGraph] stays a key of [sourcesGraph],
    whatever hooks fire afterwards. *)
Theorem keys_are_never_removed events more key :
  (is_Some (inputs (run events) !! key) →
   is_Some (inputs (run (events ++ more)) !! key))
  ∧ (key ∈ (sourcesGraph (run events)).*1 →
     key ∈ (sourcesGraph (run (events ++ more))).*1).
Proof.
  unfold run. rewrite fold_left_app. generalize (fold_left fire events initialState).
  intros st. split.
  - revert st. induction more as [|ev more IH]; intros st Hs; [done|].
    cbn. by apply IH, fire_present.
  - assert (∀ st, key ∈ (sourcesGraph st).*1 →
              key ∈ (sourcesGraph (fold_left fire more st)).*1) as Hgen; [|apply Hgen].
    clear st. induction more as [|ev more IH]; intros st Hs; [done|].
    cbn. apply IH. destruct ev as [i|m|ms|p names|args]; cbn; try done.
    + destruct (loadCodeAndMap i) as [sources|]; [|done]. rewrite mapSet_keys.
      destruct (decide (normalizePath i ∈ (sourcesGraph st).*1)); [done|].
      apply elem_of_app. by left.
    + by destruct (writeBundle_post st args) as [->|[_ ->]].
Qed.

Lemma run_graph_NoDup events : NoDup (sourcesGraph (run events)).*1.
Proof.
  unfold run. induction events as [|ev events IH] using rev_ind; [constructor|].
  rewrite fold_left_app. cbn. by apply fire_graph_keys.
Qed.

(** X8.  [sourcesGraph] holds one source list per key.  A [load] whose file
    has a source map replaces the list of its key and keeps the place of a
    key that is already there; a [load] whose file has none leaves the
    earlier list of the key in the graph, although it resets the record of
    the key. *)
Theorem load_keeps_one_source_list_per_key events i :
  let st := run events in
  let st' := load st i in
  NoDup (sourcesGraph st').*1
  ∧ mapGet (normalizePath i) (sourcesGraph st')
    = match loadCodeAndMap i with
      | Some sources => Some sources
      | None => mapGet (normalizePath i) (sourcesGraph st)
      end
  ∧ inputs st' !! normalizePath i = Some defaultEntry
  ∧ (∀ key, key ≠ normalizePath i →
       mapGet key (sourcesGraph st') = mapGet key (sourcesGraph st))
  ∧ (normalizePath i ∈ (sourcesGraph st).*1 →
       (sourcesGraph st').*1 = (sourcesGraph st).*1).
Proof.
  intros st st'. split_and!.
  - apply (fire_graph_keys st (Load i)), run_graph_NoDup.
  - subst st'. cbn. destruct (loadCodeAndMap i) as [sources|]; [|done].
    rewrite mapGet_mapSet. by rewrite decide_True.
  - apply lookup_insert_eq.
  - intros key Hne. subst st'. cbn. destruct (loadCodeAndMap i) as [sources|]; [|done].
    rewrite mapGet_mapSet. by rewrite decide_False.
  - intros Hin. subst st'. cbn. destruct (loadCodeAndMap i) as [sources|]; [|done].
    rewrite mapSet_keys. by rewrite decide_True.
Qed.

(** ** More on the adapters *)

(** X9.  Of two [moduleParsed] calls for ids with the same key, the later
    one decides [bytes], [format] and [imports]; the mapping is the one the
    later call alone would give. *)
Theorem moduleParsed_later_call_wins (inp : gmap string ModuleEntry) m1 m2 :
  normalizePath (id m1) = normalizePath (id m2) →
  moduleParsed (moduleParsed inp m1) m2 = moduleParsed inp m2.
Proof.
  intros Hkey. unfold moduleParsed at 1.
  rewrite <- Hkey, moduleParsed_lookup. cbn.
  unfold moduleParsed. rewrite <- Hkey. by rewrite insert_insert_eq.
Qed.

(** X10.  [moduleParsed] calls for ids with different keys do not interfere:
    in either order they give the same mapping. *)
Theorem moduleParsed_calls_commute (inp : gmap string ModuleEntry) m1 m2 :
  normalizePath (id m1) ≠ normalizePath (id m2) →
  moduleParsed (moduleParsed inp m1) m2 = moduleParsed (moduleParsed inp m2) m1.
Proof.
  intros Hkey. unfold moduleParsed at 1 3.
  rewrite !moduleParsed_other by done.
  unfold moduleParsed. by apply insert_insert_ne.
Qed.

Lemma byteLength_bounds s :
  (N.of_nat (length s) ≤ byteLength s ∧ byteLength s ≤ 3 * N.of_nat (length s))%N.
Proof.
  assert (∀ n (s : JsString), (length s ≤ n)%nat →
            (N.of_nat (length s) ≤ byteLength s
             ∧ byteLength s ≤ 3 * N.of_nat (length s))%N) as Hgen.
  { intros n. induction n as [|n IH]; intros [|u t] Hlen; cbn in Hlen; [by cbn|lia|by cbn|].
    pose proof (IH t ltac:(lia)) as Ht. cbn [byteLength length].
    destruct (u <? 128)%N; [lia|]. destruct (u <? 2048)%N; [lia|].
    destruct (isHighSurrogate u); [|lia].
    destruct t as [|v t']; [cbn; lia|].
    destruct (isLowSurrogate v); [|lia].
    pose proof (IH t' ltac:(cbn in Hlen; lia)) as Ht'. cbn [length] in *. lia. }
  by apply (Hgen (length s)).
Qed.

(** X11.  The [bytes] that [moduleParsed] records lie between one and three
    times the number of UTF-16 code units of the code, and are 0 exactly for
    an empty or absent code. *)
Theorem moduleParsed_bytes_bounds (inp : gmap string ModuleEntry) m :
  ∃ e, moduleParsed inp m !! normalizePath (id m) = Some e
    ∧ (∀ c, code m = Some c →
         (N.of_nat (length c) ≤ bytes e ∧ bytes e ≤ 3 * N.of_nat (length c))%N)
    ∧ (bytes e = 0%N ↔ code m = None ∨ code m = Some []).
Proof.
  eexists. split; [apply moduleParsed_lookup|]. cbn [bytes]. split.
  - intros c ->. destruct c as [|u c]; [cbn; lia|]. apply byteLength_bounds.
  - destruct (code m) as [[|u c]|]; split; try (by auto).
    + intros Hz. pose proof (byteLength_bounds (u :: c)) as [Hlow _].
      rewrite Hz in Hlow. cbn [length] in Hlow. lia.
    + intros [?|?]; done.
Qed.

(** X12.  [load] followed by the webpack hook for a module with the same
    resource.  When the resource is its own key, the hook finds the record
    of [load] and stores the imports as webpack names them; when it is not
    (and is no key of the mapping), the hook does not find the record and
    writes a new one under the key, with normalized imports.  Either way
    the record under the key has the format of the module type, 0 bytes and
    no parent. *)
Theorem load_then_optimizeModule st m :
  let key := normalizePath (resource m) in
  let out := optimizeModule (inputs (load st (resource m))) m in
  (key = resource m →
     out !! key
     = Some {| bytes := 0; format := webpackFormat (type m);
               imports := omap (λ r, r) (dependencies m); belongsTo := None |})
  ∧ (key ≠ resource m → inputs st !! resource m = None →
     out !! key
     = Some {| bytes := 0; format := webpackFormat (type m);
               imports := map normalizePath (omap (λ r, r) (dependencies m));
               belongsTo := None |}).
Proof.
  intros key out. subst key out. unfold optimizeModule. cbn. split.
  - intros Hkey. rewrite Hkey, lookup_insert_eq. cbn. apply lookup_insert_eq.
  - intros Hkey Hnone. rewrite lookup_insert_ne by done. rewrite Hnone.
    apply lookup_insert_eq.
Qed.

(** ** [writeBundle], the adapters and the report *)





(** X5.  In every state the hooks can reach, the attribution loop returns
    (every module of the graph has its record), and the output directory is
    known whenever an asset list is; so the statements of [writeBundle]
    that precede the report throw in two cases only: without arguments
    while no asset list was recorded, and with output options that have
    neither [dir] nor [file].  In both the state is untouched and nothing is
    written.  In every other case the state holds the asset list, the output
    directory and the attributed mapping when the report is generated. *)
Theorem writeBundle_own_throws events args :
  let st := run events in
  let r := writeBundle st args in
  (attribute (sourcesGraph st) (inputs st)).2 = Returned
  ∧ (is_Some (assets st) → is_Some (outputDir st))
  ∧ (args = None → assets st = None →
       r = {| post := st; effects := [];
              outcome := Thrown (JsError missingOutputMessage) |})
  ∧ (∀ a, args = Some a → dir a = None → file a = None →
       r = {| post := st; effects := []; outcome := Thrown TypeError |})
  ∧ (¬ (args = None ∧ assets st = None) →
     ¬ (∃ a, args = Some a ∧ dir a = None ∧ file a = None) →
       is_Some (assets (post r)) ∧ is_Some (outputDir (post r))
       ∧ inputs (post r) = (attribute (sourcesGraph st) (inputs st)).1
       ∧ sourcesGraph (post r) = sourcesGraph st).
Proof.
  intros st r. subst r.
  destruct (run_invariants events) as [Hkeys _].
  pose proof (run_outputKnown events) as Hout. fold st in Hkeys, Hout.
  split_and!.
  - by apply attribute_returns.
  - exact Hout.
  - intros -> Hnone. unfold writeBundle. by rewrite Hnone.
  - intros a -> Hdir Hfile. unfold writeBundle. by rewrite Hdir, Hfile.
  - intros Hlist Hopts. unfold writeBundle. destruct args as [a|].
    + destruct (match dir a with Some d => Some d | None => NodePath.dirname <$> file a end)
        as [d|] eqn:Hd.
      * rewrite <- (generateReportFromAssets_inputs
          (map (NodePath.join (NodePath.resolve cwd d)) (bundle a))
          (Some (NodePath.resolve cwd d)) (inputs st) (sourcesGraph st) open).
        destruct (generateReportFromAssets _ _ _ _ _) as [[inp' eff] out]. cbn.
        split_and!; eauto.
      * exfalso. apply Hopts. exists a. destruct (dir a); [done|].
        by destruct (file a).
    + destruct (assets st) as [assetList|] eqn:Hassets.
      * rewrite <- (generateReportFromAssets_inputs assetList (outputDir st) (inputs st)
          (sourcesGraph st) open).
        destruct (generateReportFromAssets _ _ _ _ _) as [[inp' eff] out]. cbn.
        split_and!; [by eauto| |done|done]. apply Hout. rewrite Hassets. by eauto.
      * exfalso. by apply Hlist.
Qed.

End Plugin.

(** ** Path normalization *)

Import NodePath Utils.

Lemma hasChar_cons c a s : hasChar c (String a s) = bool_decide (a = c) || hasChar c s.
Proof. reflexivity. Qed.

Lemma hasChar_app c s t : hasChar c (s +:+ t) = hasChar c s || hasChar c t.
Proof. induction s as [|a s IH]; [done|]. simpl. by rewrite IH, orb_assoc. Qed.

Lemma toPosix_no_backslash s : hasChar backslash (toPosix s) = false.
Proof.
  induction s as [|a s IH]; [done|]. cbn. rewrite IH, orb_false_r.
  apply bool_decide_eq_false_2. by destruct (decide (a = backslash)) as [->|].
Qed.

Lemma toPosix_fixed s : hasChar backslash s = false → toPosix s = s.
Proof.
  induction s as [|a s IH]; [done|]. cbn.
  intros [Ha%bool_decide_eq_false_1 Hs]%orb_false_elim.
  rewrite IH by done. by destruct (decide (a = backslash)).
Qed.

Lemma splitOn_nonempty c s : splitOn c s ≠ [].
Proof.
  destruct s as [|a s]; [done|]. cbn.
  destruct (decide (a = c)); [done|]. by destruct (splitOn c s).
Qed.

(** No piece of a split contains the separator, and a character that is
    absent from the string is absent from every piece. *)
Lemma splitOn_hasChar c d s :
  (d = c ∨ hasChar d s = false) →
  Forall (λ seg, hasChar d seg = false) (splitOn c s).
Proof.
  induction s as [|a s IH]; intros Hd; [by repeat constructor|].
  cbn. destruct (decide (a = c)) as [->|Ha].
  - constructor; [done|]. apply IH. destruct Hd as [->|Hd]; [by left|].
    cbn in Hd. apply orb_false_elim in Hd as [_ Hd]. by right.
  - assert (bool_decide (a = d) = false ∧ (d = c ∨ hasChar d s = false)) as [Had Hs].
    { destruct Hd as [->|Hd].
      - split; [by apply bool_decide_eq_false_2|by left].
      - cbn in Hd. apply orb_false_elim in Hd as [? ?]. by split; [|right]. }
    specialize (IH Hs). destruct (splitOn c s) as [|h t].
    + repeat constructor. cbn. by rewrite Had.
    + apply Forall_cons in IH as [Hh Ht]. constructor; [|done]. cbn. by rewrite Had, Hh.
Qed.

Lemma splitOn_whole c s : hasChar c s = false → splitOn c s = [s].
Proof.
  induction s as [|a s IH]; [done|]. cbn.
  intros [Ha%bool_decide_eq_false_1 Hs]%orb_false_elim.
  destruct (decide (a = c)); [done|]. by rewrite IH.
Qed.

Lemma splitOn_app c s t :
  hasChar c s = false → splitOn c (s +:+ String c t) = s :: splitOn c t.
Proof.
  induction s as [|a s IH]; simpl.
  - intros _. destruct (decide (c = c)); [done|congruence].
  - intros [Ha%bool_decide_eq_false_1 Hs]%orb_false_elim.
    destruct (decide (a = c)); [done|]. by rewrite IH.
Qed.

Lemma splitOn_joinWith c l :
  l ≠ [] → Forall (λ seg, hasChar c seg = false) l → splitOn c (joinWith c l) = l.
Proof.
  induction l as [|s l IH]; [done|]. intros _ [Hs Hl]%Forall_cons.
  destruct l as [|s' l]; [by apply splitOn_whole|].
  change (joinWith c (s :: s' :: l)) with (s +:+ String c (joinWith c (s' :: l))).
  rewrite splitOn_app by done. by rewrite IH.
Qed.

Lemma hasChar_joinWith c d l :
  d ≠ c → Forall (λ seg, hasChar d seg = false) l → hasChar d (joinWith c l) = false.
Proof.
  intros Hdc. induction l as [|s l IH]; [done|]. intros [Hs Hl]%Forall_cons.
  destruct l as [|s' l]; [done|].
  change (joinWith c (s :: s' :: l)) with (s +:+ String c (joinWith c (s' :: l))).
  rewrite hasChar_app, Hs, hasChar_cons, IH by done.
  rewrite orb_false_r. apply bool_decide_eq_false_2. congruence.
Qed.

Lemma startsWithSlash_joinWith s l :
  s ≠ "" → hasChar slash s = false → startsWithSlash (joinWith slash (s :: l)) = false.
Proof.
  intros Hne Hs. destruct s as [|a s]; [done|].
  cbn in Hs. apply orb_false_elim in Hs as [Ha _].
  destruct l; cbn; done.
Qed.

Lemma segments_clean x : Forall cleanSegment (splitOn slash (toPosix x)).
Proof.
  apply Forall_and. split.
  - apply splitOn_hasChar. by left.
  - apply splitOn_hasChar. right. apply toPosix_no_backslash.
Qed.

Lemma Canonical_clean l : Canonical l → Forall (λ s, s ≠ "" ∧ cleanSegment s) l.
Proof.
  induction 1 as [l _ IH|l Hl].
  - constructor; [by repeat split|done].
  - eapply Forall_impl; [exact Hl|]. intros s (Hc & Hne & _). by split.
Qed.

Lemma Canonical_replicate n l :
  Forall plainSegment l → Canonical (replicate n ".." ++ l)%list.
Proof.
  intros Hl. induction n as [|n IH]; [by apply Canonical_plain|].
  cbn. by apply Canonical_up.
Qed.

Lemma CanonicalStack_reverse st : CanonicalStack st → Canonical (reverse st).
Proof.
  intros (n & rest & -> & Hrest). rewrite reverse_app, reverse_replicate.
  by apply Canonical_replicate, Forall_reverse.
Qed.

Lemma normalizeStep_push allow st seg :
  seg ≠ "" → seg ≠ "." → seg ≠ ".." → normalizeStep allow st seg = seg :: st.
Proof.
  intros H1 H2 H3. unfold normalizeStep.
  destruct (decide (seg = "" ∨ seg = ".")) as [[?|?]|_]; [done..|].
  by destruct (decide (seg = "..")).
Qed.

Lemma normalizeStep_up n :
  normalizeStep true (replicate n "..") ".." = replicate (S n) "..".
Proof. by destruct n. Qed.

Lemma normalizeStep_true_stack st seg :
  cleanSegment seg → CanonicalStack st → CanonicalStack (normalizeStep true st seg).
Proof.
  intros Hclean (n & rest & -> & Hrest).
  destruct (decide (seg = "" ∨ seg = ".")) as [Hskip|Hkeep].
  { unfold normalizeStep. rewrite decide_True by done. by exists n, rest. }
  destruct (decide (seg = "..")) as [->|Hname].
  - destruct rest as [|r rest].
    + rewrite app_nil_l, normalizeStep_up. by exists (S n), [].
    + apply Forall_cons in Hrest as [(_ & _ & _ & Hr) Hrest].
      unfold normalizeStep. rewrite (decide_False (P := _ ∨ _)) by done.
      rewrite decide_True by done. rewrite <- app_comm_cons.
      rewrite decide_False by done. by exists n, rest.
  - rewrite normalizeStep_push by tauto. exists n, (seg :: rest). split; [done|].
    constructor; [|done]. split; [done|]. tauto.
Qed.

Lemma normalizeSegments_true_canonical segs :
  Forall cleanSegment segs → Canonical (normalizeSegments true segs).
Proof.
  intros Hsegs. apply CanonicalStack_reverse.
  assert (CanonicalStack []) as Hst by (by exists 0, []).
  revert Hst. generalize (@nil string).
  induction Hsegs as [|seg segs Hseg _ IH]; intros st Hst; [done|].
  cbn. by apply IH, normalizeStep_true_stack.
Qed.

Lemma normalizeStep_false_plain st seg :
  cleanSegment seg → Forall plainSegment st → Forall plainSegment (normalizeStep false st seg).
Proof.
  intros Hclean Hst. unfold normalizeStep.
  destruct (decide (seg = "" ∨ seg = ".")) as [Hskip|Hkeep]; [done|].
  destruct (decide (seg = "..")) as [->|Hname].
  - destruct st as [|last st]; [done|]. apply Forall_cons in Hst as [Hlast Hst].
    destruct (decide (last = "..")); [by constructor|done].
  - constructor; [|done]. split; [done|]. tauto.
Qed.

Lemma normalizeSegments_false_plain segs :
  Forall cleanSegment segs → Forall plainSegment (normalizeSegments false segs).
Proof.
  intros Hsegs. apply Forall_reverse.
  assert (Forall plainSegment []) as Hst by constructor.
  revert Hst. generalize (@nil string).
  induction Hsegs as [|seg segs Hseg _ IH]; intros st Hst; [done|].
  cbn. by apply IH, normalizeStep_false_plain.
Qed.

Lemma relativeTo_canonical root path :
  Forall plainSegment path → Canonical (relativeTo root path).
Proof.
  revert path. induction root as [|r root IH]; intros path Hpath.
  - destruct path; by apply (Canonical_replicate 0).
  - destruct path as [|p path]; [by apply (Canonical_replicate (S (length root)))|].
    cbn. destruct (decide (r = p)).
    + apply IH. by apply Forall_cons in Hpath as [_ ?].
    + by apply (Canonical_replicate (S (length root))).
Qed.

Lemma fold_plain_segments l st :
  Forall plainSegment l → fold_left (normalizeStep true) l st = (reverse l ++ st)%list.
Proof.
  intros Hl. revert st. induction Hl as [|s l (_ & H1 & H2 & H3) _ IH]; intros st; [done|].
  cbn [fold_left]. rewrite IH, normalizeStep_push, reverse_cons by done.
  by rewrite <- app_assoc.
Qed.

Lemma fold_canonical_segments l n :
  Canonical l →
  fold_left (normalizeStep true) l (replicate n "..") = (reverse l ++ replicate n "..")%list.
Proof.
  intros Hl. revert n. induction Hl as [l _ IH|l Hl]; intros n.
  - cbn [fold_left]. rewrite normalizeStep_up, IH, reverse_cons.
    by rewrite <- app_assoc.
  - by apply fold_plain_segments.
Qed.

(** A canonical list of segments is left as it is. *)
Lemma normalizeSegments_true_fixed l : Canonical l → normalizeSegments true l = l.
Proof.
  intros Hl. unfold normalizeSegments.
  change (@nil string) with (replicate 0 "..").
  rewrite (fold_canonical_segments l 0 Hl). cbn [replicate].
  by rewrite app_nil_r, reverse_involutive.
Qed.

(** Every key is the join of a canonical list of segments. *)
Lemma normalizePath_canonical root x :
  ∃ l, Canonical l ∧ normalizePath root x = joinWith slash l.
Proof.
  unfold normalizePath. destruct (startsWithSlash (toPosix x)).
  - eexists. split; [|done].
    apply relativeTo_canonical, normalizeSegments_false_plain, segments_clean.
  - eexists. split; [|done]. apply normalizeSegments_true_canonical, segments_clean.
Qed.

Lemma normalizePath_joinWith_canonical root l :
  Canonical l → normalizePath root (joinWith slash l) = joinWith slash l.
Proof.
  intros Hl. pose proof (Canonical_clean l Hl) as Hclean.
  assert (Forall (λ seg, hasChar slash seg = false) l) as Hslash.
  { eapply Forall_impl; [exact Hclean|]. by intros s (_ & ? & _). }
  assert (Forall (λ seg, hasChar backslash seg = false) l) as Hback.
  { eapply Forall_impl; [exact Hclean|]. by intros s (_ & _ & ?). }
  unfold normalizePath. rewrite toPosix_fixed by (by apply hasChar_joinWith).
  destruct l as [|s l]; [done|].
  apply Forall_cons in Hclean as [(Hne & Hs & _) _].
  rewrite startsWithSlash_joinWith by done.
  rewrite splitOn_joinWith by done. by rewrite normalizeSegments_true_fixed.
Qed.

Lemma toPosix_slash t : toPosix (String slash t) = String slash (toPosix t).
Proof. reflexivity. Qed.

Lemma toPosix_app s t : toPosix (s +:+ t) = toPosix s +:+ toPosix t.
Proof. induction s as [|a s IH]; [done|]. simpl. by rewrite IH. Qed.

Lemma splitOn_app_sep c s t :
  splitOn c (s +:+ String c t) = (splitOn c s ++ splitOn c t)%list.
Proof.
  induction s as [|a s IH]; simpl.
  - destruct (decide (c = c)); [done|congruence].
  - destruct (decide (a = c)); [by rewrite IH|]. rewrite IH.
    pose proof (splitOn_nonempty c s) as Hne. by destruct (splitOn c s).
Qed.

Lemma startsWithSlash_app_sep d t t' :
  startsWithSlash (d +:+ String slash t) = startsWithSlash (d +:+ String slash t').
Proof. by destruct d. Qed.

Lemma normalizeSegments_app allow l1 l2 l2' :
  (∀ st, fold_left (normalizeStep allow) l2 st = fold_left (normalizeStep allow) l2' st) →
  normalizeSegments allow (l1 ++ l2) = normalizeSegments allow (l1 ++ l2').
Proof. intros H. unfold normalizeSegments. by rewrite !fold_left_app, H. Qed.

(** Two inputs whose segments differ by steps that [normalizeStep] undoes
    have the same key. *)
Lemma normalizePath_redundant root d t t' :
  (∀ allow st,
     fold_left (normalizeStep allow) (splitOn slash (toPosix t)) st
     = fold_left (normalizeStep allow) (splitOn slash (toPosix t')) st) →
  normalizePath root (d +:+ String slash t) = normalizePath root (d +:+ String slash t').
Proof.
  intros H. unfold normalizePath. rewrite !toPosix_app, !toPosix_slash.
  rewrite (startsWithSlash_app_sep _ (toPosix t) (toPosix t')), !splitOn_app_sep.
  by rewrite !(normalizeSegments_app _ _ _ _ (H _)).
Qed.

Lemma normalizeStep_pop allow st s :
  plainSegment s → normalizeStep allow (normalizeStep allow st s) ".." = st.
Proof.
  intros (_ & H1 & H2 & H3). rewrite (normalizeStep_push allow st s) by done.
  unfold normalizeStep. rewrite (decide_False (P := _ ∨ _)) by (intros [?|?]; done).
  rewrite decide_True by done. by rewrite decide_False.
Qed.

(** C7.  [normalizePath] is idempotent; two inputs that differ only in the
    separator style have the same key; a segment followed by [..] and a
    segment [.] are redundant; and the keys of ["a\b/../c"] and of ["a/c"]
    are the same. *)
Theorem normalizePath_idempotent_separator_invariant root :
  (∀ x, normalizePath root (normalizePath root x) = normalizePath root x)
  ∧ (∀ x y, toPosix x = toPosix y → normalizePath root x = normalizePath root y)
  ∧ (∀ d s rest, plainSegment s →
       normalizePath root (d +:+ "/" +:+ s +:+ "/../" +:+ rest)
       = normalizePath root (d +:+ "/" +:+ rest))
  ∧ (∀ d rest, normalizePath root (d +:+ "/./" +:+ rest)
               = normalizePath root (d +:+ "/" +:+ rest))
  ∧ normalizePath root "a\b/../c" = normalizePath root "a/c".
Proof.
  split_and!.
  - intros x. destruct (normalizePath_canonical root x) as (l & Hl & ->).
    by apply normalizePath_joinWith_canonical.
  - intros x y Hxy. unfold normalizePath. by rewrite Hxy.
  - intros d s rest Hs.
    change (d +:+ "/" +:+ s +:+ "/../" +:+ rest)
      with (d +:+ String slash (s +:+ String slash (".." +:+ String slash rest))).
    apply normalizePath_redundant. intros allow st.
    pose proof Hs as ((Hslash & Hback) & _).
    rewrite toPosix_app, toPosix_slash, toPosix_app, toPosix_slash, (toPosix_fixed s)
      by done.
    rewrite !splitOn_app_sep, (splitOn_whole _ s) by done.
    change (splitOn slash (toPosix "..")) with [".."]. cbn [app fold_left].
    by rewrite normalizeStep_pop.
  - intros d rest.
    change (d +:+ "/./" +:+ rest) with (d +:+ String slash ("." +:+ String slash rest)).
    apply normalizePath_redundant. intros allow st.
    by rewrite toPosix_app, toPosix_slash, splitOn_app_sep.
  - reflexivity.
Qed.

(** ** Child keys of sources with a leading separator *)

Lemma dirnameScan_positive l b e : dirnameScan l b = Some e → e ≠ 0.
Proof.
  revert b. induction l as [|c l IH]; intros b; [done|]. cbn.
  destruct (decide (c = slash)); [destruct b|]; eauto. by intros [= <-].
Qed.

Lemma dirname_nonempty path : dirname path ≠ "".
Proof.
  unfold dirname. destruct path as [|c0 tl]; [done|].
  destruct (dirnameScan (reverse (list_ascii_of_string tl)) true) as [e|] eqn:Hscan.
  - destruct (bool_decide (c0 = slash) && bool_decide (e = 1)); [done|].
    apply dirnameScan_positive in Hscan. destruct e; done.
  - by destruct (bool_decide (c0 = slash)).
Qed.

Lemma endsWithSlash_app a t : t ≠ "" → endsWithSlash (a +:+ t) = endsWithSlash t.
Proof.
  intros Ht. induction a as [|c a IH]; [done|]. simpl.
  destruct (a +:+ t) eqn:Happ; [|done].
  destruct a; [by subst|done].
Qed.

Lemma append_nonempty a t : t ≠ "" → a +:+ t ≠ "".
Proof. by destruct a. Qed.

(** [join] does not restart at a source that begins with a separator. *)
Lemma join_leading_separator d s :
  d ≠ "" → s ≠ "" → join d ("/" +:+ s) = join d s.
Proof.
  intros Hd Hs. unfold join.
  destruct (decide (d = "")) as [|_]; [done|].
  destruct (decide ("/" +:+ s = "")) as [|_]; [done|].
  destruct (decide (s = "")) as [|_]; [done|].
  change (d +:+ "/" +:+ "/" +:+ s) with (d +:+ String slash (String slash s)).
  change (d +:+ "/" +:+ s) with (d +:+ String slash s).
  unfold normalize.
  rewrite (decide_False (P := d +:+ String slash (String slash s) = ""))
    by (by apply append_nonempty).
  rewrite (decide_False (P := d +:+ String slash s = "")) by (by apply append_nonempty).
  rewrite (startsWithSlash_app_sep d (String slash s) s).
  rewrite (endsWithSlash_app d (String slash (String slash s))) by done.
  rewrite (endsWithSlash_app d (String slash s)) by done.
  change (endsWithSlash (String slash (String slash s)))
    with (endsWithSlash (String slash s)).
  assert (∀ allow, normalizeString (d +:+ String slash (String slash s)) allow
                   = normalizeString (d +:+ String slash s) allow) as Heq.
  { intros allow. unfold normalizeString. rewrite !splitOn_app_sep. f_equal.
    apply normalizeSegments_app. intros st.
    change (String slash s) with ("" +:+ String slash s).
    by rewrite splitOn_app_sep. }
  by rewrite Heq.
Qed.

(** X13.  A source that begins with a separator is not read as an absolute
    path: its child key is the child key of the source without that
    separator, below the directory of the compiled module. *)
Theorem childKey_ignores_leading_separator (normalizePath : string → string) path source :
  source ≠ "" →
  childKey normalizePath path ("/" +:+ source) = childKey normalizePath path source.
Proof.
  intros Hs. unfold childKey. f_equal.
  apply join_leading_separator; [apply dirname_nonempty|done].
Qed.

(** ** The options of the factories *)

(** X14.  [loadInclude] after the merge of the options.  Without options,
    or with options that name neither pattern, the report plugin accepts
    exactly the ids that end in [.js] or [.css]; every id the source-map
    plugin accepts by default, the report plugin accepts by default; an id
    that the [exclude] pattern matches is never accepted; and an [include]
    key that is present but [undefined] replaces the default, so that
    [loadInclude] throws for every id. *)
Theorem loadInclude_after_merge :
  (∀ i, Factory.loadInclude (Factory.assign Factory.sonarDefaults None) i
        = inr (endsWith ".js" i || endsWith ".css" i))
  ∧ (∀ o i, Factory.includeKey o = None → Factory.excludeKey o = None →
       Factory.loadInclude (Factory.assign Factory.sonarDefaults (Some o)) i
       = inr (endsWith ".js" i || endsWith ".css" i))
  ∧ (∀ i, Factory.loadInclude (Factory.assign Factory.sourcemapsDefaults None) i = inr true →
       Factory.loadInclude (Factory.assign Factory.sonarDefaults None) i = inr true)
  ∧ (∀ d o i exc,
       Factory.exclude (Factory.assign d o) = Some exc → exc i = true →
       Factory.loadInclude (Factory.assign d o) i ≠ inr true)
  ∧ (∀ d o i, Factory.includeKey o = Some None →
       Factory.loadInclude (Factory.assign d (Some o)) i = inl TypeError).
Proof.
  split_and!.
  - intros i. cbn. by destruct (endsWith ".js" i || endsWith ".css" i).
  - intros o i Hinc Hexc. unfold Factory.loadInclude, Factory.assign. cbn.
    rewrite Hinc, Hexc. cbn. by destruct (endsWith ".js" i || endsWith ".css" i).
  - intros i. unfold Factory.loadInclude, Factory.assign. cbn.
    by destruct (endsWith ".js" i).
  - intros d o i exc Hexc Hmatch. unfold Factory.loadInclude. rewrite Hexc, Hmatch.
    destruct (Factory.include (Factory.assign d o)) as [inc|]; [|done].
    destruct (inc i); cbn; congruence.
  - intros d o i Hinc. unfold Factory.loadInclude, Factory.assign. cbn. by rewrite Hinc.
Qed.

(** ** The sample project *)

Local Abbreviation sampleRun :=
  (run Sample.normalizePath Sample.loadCodeAndMap Sample.generateHtmlReport Sample.root true).
Local Abbreviation sampleWriteBundle :=
  (writeBundle Sample.normalizePath Sample.generateHtmlReport Sample.root true).
Local Abbreviation sampleAttribute := (attribute Sample.normalizePath).

Lemma attribution_records_virtual_entry_witness :
  sourcesGraph (sampleRun [Load "/home/u/proj/a/b/bundle.js"; ModuleParsed Sample.indexModule])
  = ([] ++ ("a/b/bundle.js", ["../x.ts"; "../y.ts"]) :: [])%list
  ∧ "../x.ts" ∈ ["../x.ts"; "../y.ts"]
  ∧ ∃ mid parent,
      sampleAttribute []
        (inputs (sampleRun [Load "/home/u/proj/a/b/bundle.js";
                            ModuleParsed Sample.indexModule]))
      = (mid, Returned)
      ∧ mid !! "a/b/bundle.js" = Some parent
      ∧ sampleAttribute ([] ++ [("a/b/bundle.js", ["../x.ts"; "../y.ts"])])
          (inputs (sampleRun [Load "/home/u/proj/a/b/bundle.js";
                              ModuleParsed Sample.indexModule]))
        = (attributeSources Sample.normalizePath parent "a/b/bundle.js"
             ["../x.ts"; "../y.ts"] mid, Returned)
      ∧ attributeSources Sample.normalizePath parent "a/b/bundle.js"
          ["../x.ts"; "../y.ts"] mid !! "a/x.ts"
        = Some {| bytes := 0; format := format parent; imports := [];
                  belongsTo := Some "a/b/bundle.js" |}.
Proof.
  assert (sourcesGraph (sampleRun [Load "/home/u/proj/a/b/bundle.js";
                                   ModuleParsed Sample.indexModule])
          = ([] ++ ("a/b/bundle.js", ["../x.ts"; "../y.ts"]) :: [])%list) as H1
    by reflexivity.
  assert ("../x.ts" ∈ ["../x.ts"; "../y.ts"]) as H2 by left.
  split_and!; [exact H1|exact H2|].
  exact (attribution_records_virtual_entry Sample.normalizePath Sample.loadCodeAndMap
           Sample.generateHtmlReport Sample.root true _ [] _ _ [] "../x.ts" H1 H2).
Defined.

(** The record the sample attribution leaves for [../y.ts]. *)
Example attribution_sample :
  (sampleAttribute Sample.bundleGraph Sample.bundleInputs).1 !! "a/y.ts"
  = Some {| bytes := 0; format := esm; imports := []; belongsTo := Some "a/b/bundle.js" |}.
Proof. reflexivity. Qed.

(** A call with arguments on the same state writes and opens the report. *)
Example writeBundle_with_args_reports :
  effects (sampleWriteBundle (sampleRun [Load "/home/u/proj/a/b/bundle.js"])
             Sample.rollupArgs)
  = [WriteFile "/home/u/proj/dist/sonar-report.html" "<html></html>";
     OpenFile "/home/u/proj/dist/sonar-report.html"].
Proof. reflexivity. Qed.

(** C3, counterexample.  The source map of [a/b.js] lists [b.js]; the loop
    does not skip it and [a/b.js] ends up belonging to itself. *)
Lemma self_referencing_source_not_skipped :
  ¬ noSelfParent
      (inputs (sampleRun [Load "/home/u/proj/a/b.js"; WriteBundle Sample.rollupArgs])).
Proof.
  intros Hno.
  apply (Hno "a/b.js" (virtualEntry unknown "a/b.js")); reflexivity.
Qed.

Lemma attribution_no_self_parent_without_self_source_witness :
  noSelfParent Sample.bundleInputs
  ∧ (∀ path sources source,
       (path, sources) ∈ Sample.bundleGraph → source ∈ sources →
       Sample.normalizePath (NodePath.join (NodePath.dirname path) source) ≠ path)
  ∧ noSelfParent (sampleAttribute Sample.bundleGraph Sample.bundleInputs).1.
Proof.
  assert (noSelfParent Sample.bundleInputs) as H1.
  { intros k e Hl. unfold Sample.bundleInputs in Hl.
    apply lookup_singleton_Some in Hl as [<- <-]. discriminate. }
  assert (∀ path sources source,
            (path, sources) ∈ Sample.bundleGraph → source ∈ sources →
            Sample.normalizePath (NodePath.join (NodePath.dirname path) source) ≠ path)
    as H2.
  { intros path sources source Hin%list_elem_of_singleton Hs.
    injection Hin as -> ->.
    apply elem_of_cons in Hs as [->|Hs]; [vm_compute; discriminate|].
    apply list_elem_of_singleton in Hs as ->. vm_compute; discriminate. }
  split_and!; [exact H1|exact H2|].
  exact (attribution_no_self_parent_without_self_source Sample.normalizePath
           Sample.bundleGraph Sample.bundleInputs H1 H2).
Defined.

(** C4, counterexample.  [p/a.js] and [q/b.js] both list a source that
    resolves to [shared/util.ts]; [p/a.js] is attributed first, and the
    entry ends up belonging to [q/b.js]. *)
Lemma second_attribution_overwrites_first :
  let st := sampleRun [Load "/home/u/proj/p/a.js"; Load "/home/u/proj/q/b.js"] in
  sourcesGraph st = [("p/a.js", ["../shared/util.ts"]); ("q/b.js", ["../shared/util.ts"])]
  ∧ (sampleAttribute [("p/a.js", ["../shared/util.ts"])] (inputs st)).1 !! "shared/util.ts"
    = Some {| bytes := 0; format := unknown; imports := []; belongsTo := Some "p/a.js" |}
  ∧ inputs (post (sampleWriteBundle st Sample.rollupArgs)) !! "shared/util.ts"
    = Some {| bytes := 0; format := unknown; imports := []; belongsTo := Some "q/b.js" |}.
Proof. split_and!; reflexivity. Qed.

Lemma attribution_last_writer_wins_witness :
  sampleAttribute [("p/a.js", ["../shared/util.ts"])] Sample.sharedInputs
  = ((sampleAttribute [("p/a.js", ["../shared/util.ts"])] Sample.sharedInputs).1, Returned)
  ∧ (sampleAttribute [("p/a.js", ["../shared/util.ts"])] Sample.sharedInputs).1 !! "q/b.js"
    = Some defaultEntry
  ∧ "../shared/util.ts" ∈ ["../shared/util.ts"]
  ∧ ¬ producedBy Sample.normalizePath [] "shared/util.ts"
  ∧ (sampleAttribute Sample.sharedGraph Sample.sharedInputs).1 !! "shared/util.ts"
    = Some {| bytes := 0; format := unknown; imports := []; belongsTo := Some "q/b.js" |}
  ∧ ∀ e, (sampleAttribute Sample.sharedGraph Sample.sharedInputs).1 !! "shared/util.ts"
         = Some e → belongsTo e = Some "q/b.js".
Proof.
  assert (sampleAttribute [("p/a.js", ["../shared/util.ts"])] Sample.sharedInputs
          = ((sampleAttribute [("p/a.js", ["../shared/util.ts"])] Sample.sharedInputs).1,
             Returned)) as H1 by reflexivity.
  assert ((sampleAttribute [("p/a.js", ["../shared/util.ts"])] Sample.sharedInputs).1
            !! "q/b.js" = Some defaultEntry) as H2 by reflexivity.
  assert ("../shared/util.ts" ∈ ["../shared/util.ts"]) as H3 by left.
  assert (¬ producedBy Sample.normalizePath [] "shared/util.ts") as H4.
  { intros (p & ss & s & Hin & _). by apply elem_of_nil in Hin. }
  split_and!; [exact H1|exact H2|exact H3|exact H4|..];
    apply (attribution_last_writer_wins Sample.normalizePath
             [("p/a.js", ["../shared/util.ts"])] "q/b.js" ["../shared/util.ts"] []
             Sample.sharedInputs _ defaultEntry "../shared/util.ts" H1 H2 H3 H4).
Defined.

(** C5, counterexample.  [src/lib.ts] is a module Rollup reported, with
    bytes, format and imports; the source map of [dist/lib.js] lists it, and
    after the report it is a virtual entry of [dist/lib.js]. *)
Lemma real_module_replaced_by_virtual_entry :
  let before := sampleRun [ModuleParsed Sample.libSource; Load "/home/u/proj/dist/lib.js"] in
  inputs before !! "src/lib.ts"
  = Some {| bytes := 3; format := esm; imports := ["src/dep.ts"]; belongsTo := None |}
  ∧ inputs (post (sampleWriteBundle before Sample.rollupArgs)) !! "src/lib.ts"
    = Some {| bytes := 0; format := unknown; imports := []; belongsTo := Some "dist/lib.js" |}.
Proof. split; reflexivity. Qed.

Lemma attribution_replaces_child_keys_only_witness :
  sampleAttribute [] Sample.libInputs = (Sample.libInputs, Returned)
  ∧ Sample.libInputs !! "dist/lib.js" = Some defaultEntry
  ∧ "../src/lib.ts" ∈ ["../src/lib.ts"]
  ∧ Sample.libInputs !! "src/lib.ts"
    = Some {| bytes := 3; format := esm; imports := ["src/dep.ts"]; belongsTo := None |}
  ∧ (sampleAttribute Sample.libGraph Sample.libInputs).1 !! "src/lib.ts"
    = Some {| bytes := 0; format := unknown; imports := []; belongsTo := Some "dist/lib.js" |}
  ∧ ∀ graph key,
      ¬ producedBy Sample.normalizePath graph key →
      (sampleAttribute graph Sample.libInputs).1 !! key = Sample.libInputs !! key.
Proof.
  assert (sampleAttribute [] Sample.libInputs = (Sample.libInputs, Returned)) as H1
    by reflexivity.
  assert (Sample.libInputs !! "dist/lib.js" = Some defaultEntry) as H2 by reflexivity.
  assert ("../src/lib.ts" ∈ ["../src/lib.ts"]) as H3 by left.
  assert (Sample.libInputs !! "src/lib.ts"
          = Some {| bytes := 3; format := esm; imports := ["src/dep.ts"];
                    belongsTo := None |}) as H4 by reflexivity.
  split_and!; [exact H1|exact H2|exact H3|exact H4|..];
    apply (attribution_replaces_child_keys_only Sample.normalizePath
             [] "dist/lib.js" ["../src/lib.ts"] Sample.libInputs Sample.libInputs
             defaultEntry "../src/lib.ts" _ H1 H2 H3 H4 eq_refl).
Defined.

(** The scenario of the specification: [a/b/bundle.js] of 238 bytes with the
    sources [../x.ts] and [../y.ts]. *)
Example equal_split_scenario :
  let out := computeSizes Sample.normalizePath Sample.bundleGraph
               (sampleAttribute Sample.bundleGraph Sample.bundleInputs).1 in
  out !! "a/x.ts"
  = Some {| bytes := 119; format := esm; imports := []; belongsTo := Some "a/b/bundle.js" |}
  ∧ out !! "a/y.ts"
    = Some {| bytes := 119; format := esm; imports := []; belongsTo := Some "a/b/bundle.js" |}
  ∧ out !! "a/b/bundle.js"
    = Some {| bytes := 238; format := esm; imports := []; belongsTo := None |}.
Proof. split_and!; reflexivity. Qed.

Example equalShares_remainder : equalShares 239 3 = [81; 79; 79]%N.
Proof. reflexivity. Qed.


(** The dangling import [src/dep.ts] is in the report, next to the virtual
    entries of the bundle. *)
Example report_keeps_dangling_import :
  let final := inputs (post (sampleWriteBundle
                 (sampleRun [ModuleParsed Sample.indexModule;
                             Load "/home/u/proj/a/b/bundle.js"]) Sample.rollupArgs)) in
  final !! "src/dep.ts" = None
  ∧ imports <$> final !! "src/index.mjs"
    = Some ["src/dep.ts"; "node_modules/react/index.js"]
  ∧ belongsTo <$> final !! "a/x.ts" = Some (Some "a/b/bundle.js").
Proof. split_and!; reflexivity. Qed.

(** [moduleParsed] on the sample modules. *)
Example moduleParsed_mjs :
  moduleParsed Sample.normalizePath ∅ Sample.indexModule !! "src/index.mjs"
  = Some {| bytes := 6; format := esm;
            imports := ["src/dep.ts"; "node_modules/react/index.js"];
            belongsTo := None |}.
Proof. reflexivity. Qed.

Example guessFormat_samples :
  guessFormat "a/b.cts" = Some cjs ∧ guessFormat "a/b.mjsx" = Some esm
  ∧ guessFormat "a/b.js" = None ∧ guessFormat "a/b.mjs.map" = None.
Proof. split_and!; reflexivity. Qed.
Example join_ex1 : NodePath.join "a/b" "../x.ts" = "a/x.ts".
Proof. reflexivity. Qed.
Example join_ex2 : NodePath.join "." "b.js" = "b.js".
Proof. reflexivity. Qed.
Example join_ex3 : NodePath.join "a" "../../x" = "../x".
Proof. reflexivity. Qed.
Example join_ex4 : NodePath.join "/a/" "b/" = "/a/b/".
Proof. reflexivity. Qed.
Example dirname_ex1 : NodePath.dirname "a/b/bundle.js" = "a/b".
Proof. reflexivity. Qed.
Example dirname_ex2 : NodePath.dirname "bundle.js" = ".".
Proof. reflexivity. Qed.
Example dirname_ex3 : NodePath.dirname "/bundle.js" = "/".
Proof. reflexivity. Qed.
Example dirname_ex4 : NodePath.dirname "a//b" = "a/".
Proof. reflexivity. Qed.
Example dirname_ex5 : NodePath.dirname "/a/b/" = "/a".
Proof. reflexivity. Qed.
Example resolve_ex1 : NodePath.resolve "/home/u/proj" "dist" = "/home/u/proj/dist".
Proof. reflexivity. Qed.
Example resolve_ex2 : NodePath.resolve "/home/u/proj" "/out/" = "/out".
Proof. reflexivity. Qed.
Example endsWith_ex1 : endsWith ".mjs" "src/index.mjs" = true.
Proof. reflexivity. Qed.
Example endsWith_ex2 : endsWith ".mjs" "src/index.mjs.map" = false.
Proof. reflexivity. Qed.
Example byteLength_ex1 : byteLength [104; 233; 8364; 55357; 56832]%N = 10%N.
Proof. reflexivity. Qed.

(** ** The sample project, continued *)

Lemma sample_bundle_keys_not_produced :
  ∀ path sources,
    (path, sources) ∈ Sample.bundleGraph →
    ¬ producedBy Sample.normalizePath Sample.bundleGraph path.
Proof.
  intros path sources Hin (p & ss & s & Hin' & Hs & Hk).
  unfold Sample.bundleGraph in Hin, Hin'.
  apply list_elem_of_singleton in Hin. apply list_elem_of_singleton in Hin'.
  injection Hin as -> ->. injection Hin' as -> ->.
  apply elem_of_cons in Hs as [->|Hs]; [vm_compute in Hk; discriminate|].
  apply list_elem_of_singleton in Hs as ->. vm_compute in Hk. discriminate.
Defined.

Lemma attribute_keys_are_old_and_child_keys_witness :
  (sampleAttribute Sample.bundleGraph Sample.bundleInputs).2 = Returned
  ∧ (is_Some ((sampleAttribute Sample.bundleGraph Sample.bundleInputs).1 !! "a/x.ts")
     ↔ is_Some (Sample.bundleInputs !! "a/x.ts")
       ∨ ∃ path sources source,
           (path, sources) ∈ Sample.bundleGraph ∧ source ∈ sources
           ∧ Sample.normalizePath (NodePath.join (NodePath.dirname path) source) = "a/x.ts").
Proof.
  assert ((sampleAttribute Sample.bundleGraph Sample.bundleInputs).2 = Returned) as H1
    by reflexivity.
  split; [exact H1|].
  exact (attribute_keys_are_old_and_child_keys Sample.normalizePath
           Sample.bundleGraph Sample.bundleInputs "a/x.ts" H1).
Defined.

Lemma attribute_twice_witness :
  (sampleAttribute Sample.bundleGraph Sample.bundleInputs).2 = Returned
  ∧ (∀ path sources,
       (path, sources) ∈ Sample.bundleGraph →
       ¬ producedBy Sample.normalizePath Sample.bundleGraph path)
  ∧ sampleAttribute Sample.bundleGraph
      (sampleAttribute Sample.bundleGraph Sample.bundleInputs).1
    = sampleAttribute Sample.bundleGraph Sample.bundleInputs.
Proof.
  assert ((sampleAttribute Sample.bundleGraph Sample.bundleInputs).2 = Returned) as H1
    by reflexivity.
  split_and!; [exact H1|exact sample_bundle_keys_not_produced|].
  exact (attribute_twice Sample.normalizePath Sample.bundleGraph Sample.bundleInputs
           H1 sample_bundle_keys_not_produced).
Defined.

(** When a compiled module is the child of another one, a second run can
    change the mapping: [p/x.ts] has the format of [p/two.js] after the
    first run and the format of [p/one.js] after the second. *)
Example attribute_twice_differs :
  let once := (sampleAttribute Sample.chainGraph Sample.chainInputs).1 in
  let twice := (sampleAttribute Sample.chainGraph once).1 in
  once !! "p/x.ts"
  = Some {| bytes := 0; format := esm; imports := []; belongsTo := Some "p/two.js" |}
  ∧ twice !! "p/x.ts"
    = Some {| bytes := 0; format := cjs; imports := []; belongsTo := Some "p/two.js" |}.
Proof. split; reflexivity. Qed.

Lemma attribute_children_inherit_format_witness :
  (sampleAttribute Sample.bundleGraph Sample.bundleInputs).2 = Returned
  ∧ (∀ path sources,
       (path, sources) ∈ Sample.bundleGraph →
       ¬ producedBy Sample.normalizePath Sample.bundleGraph path)
  ∧ producedBy Sample.normalizePath Sample.bundleGraph "a/y.ts"
  ∧ ∃ path parent,
      (sampleAttribute Sample.bundleGraph Sample.bundleInputs).1 !! "a/y.ts"
      = Some {| bytes := 0; format := format parent; imports := [];
                belongsTo := Some path |}
      ∧ (sampleAttribute Sample.bundleGraph Sample.bundleInputs).1 !! path = Some parent
      ∧ Sample.bundleInputs !! path = Some parent.
Proof.
  assert ((sampleAttribute Sample.bundleGraph Sample.bundleInputs).2 = Returned) as H1
    by reflexivity.
  assert (producedBy Sample.normalizePath Sample.bundleGraph "a/y.ts") as H3.
  { exists "a/b/bundle.js", ["../x.ts"; "../y.ts"], "../y.ts".
    split_and!; [left|right; left|reflexivity]. }
  split_and!; [exact H1|exact sample_bundle_keys_not_produced|exact H3|].
  exact (attribute_children_inherit_format Sample.normalizePath Sample.bundleGraph
           Sample.bundleInputs "a/y.ts" H1 sample_bundle_keys_not_produced H3).
Defined.

Lemma moduleParsed_later_call_wins_witness :
  Sample.normalizePath (id Sample.mainModule)
  = Sample.normalizePath (id Sample.mainModuleEdited)
  ∧ moduleParsed Sample.normalizePath
      (moduleParsed Sample.normalizePath ∅ Sample.mainModule) Sample.mainModuleEdited
    = moduleParsed Sample.normalizePath ∅ Sample.mainModuleEdited.
Proof.
  assert (Sample.normalizePath (id Sample.mainModule)
          = Sample.normalizePath (id Sample.mainModuleEdited)) as H1 by reflexivity.
  split; [exact H1|].
  exact (moduleParsed_later_call_wins Sample.normalizePath ∅
           Sample.mainModule Sample.mainModuleEdited H1).
Defined.

Example moduleParsed_edited :
  moduleParsed Sample.normalizePath
    (moduleParsed Sample.normalizePath ∅ Sample.mainModule) Sample.mainModuleEdited
    !! "src/main.js"
  = Some {| bytes := 5; format := esm; imports := []; belongsTo := None |}.
Proof. reflexivity. Qed.

Lemma moduleParsed_calls_commute_witness :
  Sample.normalizePath (id Sample.mainModule) ≠ Sample.normalizePath (id Sample.indexModule)
  ∧ moduleParsed Sample.normalizePath
      (moduleParsed Sample.normalizePath ∅ Sample.mainModule) Sample.indexModule
    = moduleParsed Sample.normalizePath
        (moduleParsed Sample.normalizePath ∅ Sample.indexModule) Sample.mainModule.
Proof.
  assert (Sample.normalizePath (id Sample.mainModule)
          ≠ Sample.normalizePath (id Sample.indexModule)) as H1
    by (vm_compute; discriminate).
  split; [exact H1|].
  exact (moduleParsed_calls_commute Sample.normalizePath ∅
           Sample.mainModule Sample.indexModule H1).
Defined.

Lemma childKey_ignores_leading_separator_witness :
  "src/lib.ts" ≠ ""
  ∧ childKey Sample.normalizePath "dist/lib.js" ("/" +:+ "src/lib.ts")
    = childKey Sample.normalizePath "dist/lib.js" "src/lib.ts".
Proof.
  assert ("src/lib.ts" ≠ "") as H1 by discriminate.
  split; [exact H1|].
  exact (childKey_ignores_leading_separator Sample.normalizePath
           "dist/lib.js" "src/lib.ts" H1).
Defined.

Example childKey_of_absolute_source :
  childKey Sample.normalizePath "dist/lib.js" "/home/u/proj/src/lib.ts"
  = "dist/home/u/proj/src/lib.ts".
Proof. reflexivity. Qed.

Example loadInclude_samples :
  Factory.loadInclude (Factory.assign Factory.sonarDefaults None) "src/app.css" = inr true
  ∧ Factory.loadInclude (Factory.assign Factory.sonarDefaults None) "src/app.ts" = inr false
  ∧ Factory.loadInclude
      (Factory.assign Factory.sonarDefaults
         (Some {| Factory.includeKey := None;
                  Factory.excludeKey := Some (Some (endsWith ".min.js"));
                  Factory.openKey := Some (Some false) |})) "src/app.min.js"
    = inr false.
Proof. split_and!; reflexivity. Qed.

(** ** Size computation on the sample project *)


(** A source named twice is one child, at the place of its first mention:
    of 239 bytes the remainder goes to [a/x.ts]. *)
Example equal_split_repeated_source :
  let inp := (sampleAttribute Sample.repeatGraph Sample.repeatInputs).1 in
  let out := computeSizes Sample.normalizePath Sample.repeatGraph inp in
  virtualChildren Sample.normalizePath inp "a/b/bundle.js" ["../x.ts"; "../y.ts"; "../x.ts"]
  = ["a/x.ts"; "a/y.ts"]
  ∧ bytesAt out "a/x.ts" = 120%N
  ∧ bytesAt out "a/y.ts" = 119%N
  ∧ bytesAt out "a/b/bundle.js" = 239%N.
Proof. split_and!; reflexivity. Qed.

(** ** Empty asset lists and import edges on the sample project *)


(** An empty list recorded by [afterEmit] counts as well. *)
Example empty_recorded_list_is_reported :
  let st := sampleRun [AfterEmit (Some "/home/u/proj/out") []] in
  assets st = Some []
  ∧ outcome (sampleWriteBundle st None) = Returned
  ∧ effects (sampleWriteBundle st None)
    = [WriteFile "/home/u/proj/out/sonar-report.html" "<html></html>";
       OpenFile "/home/u/proj/out/sonar-report.html"].
Proof. split_and!; reflexivity. Qed.


(** In the same report the virtual entry names a parent that is a key. *)
Example report_parent_is_a_key :
  let before := sampleRun [ModuleParsed Sample.libSource; Load "/home/u/proj/dist/lib.js"] in
  let final := inputs (post (sampleWriteBundle before Sample.rollupArgs)) in
  belongsTo <$> final !! "src/lib.ts" = Some (Some "dist/lib.js")
  ∧ final !! "dist/lib.js" = Some defaultEntry.
Proof. split; reflexivity. Qed.
